(** * radio: directory enumeration and HTTP statistics

A shallow embedding of two leaf components of the radio server:

- [cmd/http-stats.go]: the byte counters [ConnStats], the lock-guarded
  counter table [HTTPAPIStats] and the aggregate [HTTPStats];
- [cmd/posix-list-dir_other.go]: the bounded, symlink-aware directory
  listing [readDirN].

Go values are modelled as the code has them: [int] is a 64-bit signed
integer carried as a [Z] with its wrap-around written out, [uint64] an
unsigned one, a [map[string]int] is a reference into a store of
[gmap string Z] (or nil), file modes are bit masks tested with [Z.land]. *)

From Stdlib Require Import ZArith String Ascii List Lia Bool DecimalString.
From stdpp Require Import base option list gmap strings.

Local Open Scope Z_scope.

(** ** Go values and control *)

Module Go.

(** Go's [int] on the 64-bit targets the server is built for (on a 32-bit
    target it is 32 bits wide and wraps the sooner). *)
Definition bits : Z := 64.
Definition max_int : Z := 2 ^ (bits - 1) - 1.
Definition min_int : Z := - 2 ^ (bits - 1).

(** Two's-complement wrap-around of a mathematical result into [int]. *)
Definition wrap (z : Z) : Z :=
  (z + 2 ^ (bits - 1)) mod 2 ^ bits - 2 ^ (bits - 1).

Definition in_range (z : Z) : Prop := min_int <= z <= max_int.

(** [x++] and [x--] on an [int]. *)
Definition incr (z : Z) : Z := wrap (z + 1).
Definition decr (z : Z) : Z := wrap (z - 1).

(** Wrap-around into [uint64]; [to_uint64] is the conversion [uint64(n)]. *)
Definition wrap_u64 (z : Z) : Z := z mod 2 ^ 64.
Definition to_uint64 (n : Z) : Z := wrap_u64 n.

(** Run-time panics the modelled code could raise. *)
Inductive panic :=
| NilDereference
| NilMapWrite
| SliceBounds.

(** Result of running a piece of code: a value or a panic. *)
Inductive res (A : Type) :=
| Ok (a : A)
| Panicked (p : panic).
Arguments Ok {A} a.
Arguments Panicked {A} p.

Definition bind {A B} (r : res A) (k : A -> res B) : res B :=
  match r with
  | Ok a => k a
  | Panicked p => Panicked p
  end.

(** [strings.HasSuffix]: [len(s) >= len(suffix) &&
    s[len(s)-len(suffix):] == suffix]. *)
Definition HasSuffix (s suffix : string) : bool :=
  (String.length suffix <=? String.length s)%nat &&
  String.eqb
    (substring (String.length s - String.length suffix)
               (String.length suffix) s)
    suffix.

(** Whether the byte [c] occurs in [s]. *)
Fixpoint has_byte (c : ascii) (s : string) : bool :=
  match s with
  | EmptyString => false
  | String a s' => Ascii.eqb a c || has_byte c s'
  end.

(** [strings.Contains]: [substr] starts at some offset of [s]. *)
Fixpoint Contains (s substr : string) : bool :=
  String.prefix substr s ||
  match s with
  | EmptyString => false
  | String _ s' => Contains s' substr
  end.

End Go.

#[global] Instance res_ret : MRet Go.res := @Go.Ok.
#[global] Instance res_bind : MBind Go.res := fun A B k r => Go.bind r k.

(** ** [cmd/http-stats.go] *)

Module Stats.
Import Go.

(** *** Byte counters

[atomic.Uint64] read and add, seen by one caller at a time. *)

Record ConnStats := {
  totalInputBytes : Z;
  totalOutputBytes : Z;
  s3InputBytes : Z;
  s3OutputBytes : Z
}.

Definition atomic_Add (v delta : Z) : Z := wrap_u64 (v + delta).

Definition incInputBytes (s : ConnStats) (n : Z) : ConnStats :=
  {| totalInputBytes := atomic_Add (totalInputBytes s) (to_uint64 n);
     totalOutputBytes := totalOutputBytes s;
     s3InputBytes := s3InputBytes s;
     s3OutputBytes := s3OutputBytes s |}.

Definition incOutputBytes (s : ConnStats) (n : Z) : ConnStats :=
  {| totalInputBytes := totalInputBytes s;
     totalOutputBytes := atomic_Add (totalOutputBytes s) (to_uint64 n);
     s3InputBytes := s3InputBytes s;
     s3OutputBytes := s3OutputBytes s |}.

Definition incS3InputBytes (s : ConnStats) (n : Z) : ConnStats :=
  {| totalInputBytes := totalInputBytes s;
     totalOutputBytes := totalOutputBytes s;
     s3InputBytes := atomic_Add (s3InputBytes s) (to_uint64 n);
     s3OutputBytes := s3OutputBytes s |}.

Definition incS3OutputBytes (s : ConnStats) (n : Z) : ConnStats :=
  {| totalInputBytes := totalInputBytes s;
     totalOutputBytes := totalOutputBytes s;
     s3InputBytes := s3InputBytes s;
     s3OutputBytes := atomic_Add (s3OutputBytes s) (to_uint64 n) |}.

Definition getTotalInputBytes (s : ConnStats) : Z := totalInputBytes s.
Definition getTotalOutputBytes (s : ConnStats) : Z := totalOutputBytes s.
Definition getS3InputBytes (s : ConnStats) : Z := s3InputBytes s.
Definition getS3OutputBytes (s : ConnStats) : Z := s3OutputBytes s.

Record ServerConnStats := {
  TotalInputBytes : Z;
  TotalOutputBytes : Z;
  Throughput : Z;
  S3InputBytes : Z;
  S3OutputBytes : Z
}.

Definition toServerConnStats (s : ConnStats) : ServerConnStats :=
  {| TotalInputBytes := getTotalInputBytes s;
     TotalOutputBytes := getTotalOutputBytes s;
     Throughput := 0;
     S3InputBytes := getS3InputBytes s;
     S3OutputBytes := getS3OutputBytes s |}.

Definition newConnStats : ConnStats :=
  {| totalInputBytes := 0; totalOutputBytes := 0;
     s3InputBytes := 0; s3OutputBytes := 0 |}.

(** *** The store of maps

A Go map is a reference: copying the map value copies the reference,
not the table.  The store holds every table made by [make]; a map
value is [None] (the nil map) or [Some l], the [l]-th table made. *)

Abbreviation heap := (list (gmap string Z)) (only parsing).
Abbreviation mapref := (option nat) (only parsing).

(** The table behind a map value; the nil map reads as the empty table. *)
Definition table (h : heap) (m : mapref) : gmap string Z :=
  match m with
  | None => ∅
  | Some l => default ∅ (h !! l)
  end.

(** [make(map[string]int)] *)
Definition make_map (h : heap) : heap * mapref :=
  (h ++ [∅], Some (length h)).

(** [m[k]] with the comma-ok result; the nil map has no key. *)
Definition map_get (h : heap) (m : mapref) (k : string) : Z * bool :=
  match table h m !! k with
  | Some v => (v, true)
  | None => (0, false)
  end.

(** [m[k] = v]; assigning into the nil map panics. *)
Definition map_set (h : heap) (m : mapref) (k : string) (v : Z) : res heap :=
  match m with
  | None => Panicked NilMapWrite
  | Some l => Ok (<[l := <[k := v]> (table h m)]> h)
  end.

(** *** HTTPAPIStats

The struct holds the map value and the embedded [sync.RWMutex]; one
call runs its critical section alone, so the mutex has no state of
its own here. *)

Record HTTPAPIStats := { APIStats : mapref }.

(** How a call on a pointer receiver ends: [Fault p] is a panic,
    [RetNil] the return taken by [if stats == nil], [Ret h s] the normal
    return, with the store and the receiver's struct as the call leaves
    them. *)
Inductive exit :=
| Fault (p : panic)
| RetNil
| Ret (h : heap) (s : HTTPAPIStats).

(** [stats.Lock()] is [(&stats.RWMutex).Lock()]: reaching the embedded
    mutex dereferences the receiver. *)
Definition Lock (stats : option HTTPAPIStats) : res unit :=
  match stats with
  | None => Panicked NilDereference
  | Some _ => Ok tt
  end.

(** The critical section of [Inc], on a receiver that is not nil. *)
Definition Inc_locked (h : heap) (s : HTTPAPIStats) (api : string)
  : res (heap * HTTPAPIStats) :=
  let '(h, s) :=
    match APIStats s with
    | None => let '(h', m) := make_map h in (h', {| APIStats := m |})
    | Some _ => (h, s)
    end in
  let '(v, ok) := map_get h (APIStats s) api in
  if ok then
    h' ← map_set h (APIStats s) api (incr v); Ok (h', s)
  else
    h' ← map_set h (APIStats s) api 1; Ok (h', s).

Definition finish (r : res (heap * HTTPAPIStats)) : exit :=
  match r with
  | Ok (h, s) => Ret h s
  | Panicked p => Fault p
  end.

Definition Inc (h : heap) (stats : option HTTPAPIStats) (api : string) : exit :=
  match Lock stats with
  | Ok _ =>
    match stats with
    | None => RetNil
    | Some s => finish (Inc_locked h s api)
    end
  | Panicked p => Fault p
  end.

(** The critical section of [Dec]. *)
Definition Dec_locked (h : heap) (s : HTTPAPIStats) (api : string)
  : res (heap * HTTPAPIStats) :=
  let '(val, ok) := map_get h (APIStats s) api in
  if ok && (val >? 0) then
    h' ← map_set h (APIStats s) api (decr val); Ok (h', s)
  else Ok (h, s).

Definition Dec (h : heap) (stats : option HTTPAPIStats) (api : string) : exit :=
  match Lock stats with
  | Ok _ =>
    match stats with
    | None => RetNil
    | Some s => finish (Dec_locked h s api)
    end
  | Panicked p => Fault p
  end.

(** [Load] hands out the map value itself, not a copy of the table. *)
Definition Load (stats : option HTTPAPIStats) : res mapref :=
  _ ← Lock stats;
  match stats with
  | None => Panicked NilDereference
  | Some s => Ok (APIStats s)
  end.

(** *** HTTPStats *)

Record HTTPStats := {
  currentS3Requests : HTTPAPIStats;
  totalS3Requests : HTTPAPIStats;
  totalS3Errors : HTTPAPIStats
}.

Record ServerHTTPAPIStats := { Server_APIStats : mapref }.

Record ServerHTTPStats := {
  CurrentS3Requests : ServerHTTPAPIStats;
  TotalS3Requests : ServerHTTPAPIStats;
  TotalS3Errors : ServerHTTPAPIStats
}.

Definition newHTTPStats : HTTPStats :=
  {| currentS3Requests := {| APIStats := None |};
     totalS3Requests := {| APIStats := None |};
     totalS3Errors := {| APIStats := None |} |}.

Definition toServerHTTPStats (st : HTTPStats) : res ServerHTTPStats :=
  cur ← Load (Some (currentS3Requests st));
  tot ← Load (Some (totalS3Requests st));
  errs ← Load (Some (totalS3Errors st));
  Ok {| CurrentS3Requests := {| Server_APIStats := cur |};
        TotalS3Requests := {| Server_APIStats := tot |};
        TotalS3Errors := {| Server_APIStats := errs |} |}.

(** A method call on the address of a struct field: the field's struct
    afterwards, or the panic. *)
Definition on_field (h : heap) (s : HTTPAPIStats) (e : exit)
  : res (heap * HTTPAPIStats) :=
  match e with
  | Fault p => Panicked p
  | RetNil => Ok (h, s)
  | Ret h' s' => Ok (h', s')
  end.

(** The parts of [*http.Request] and of [*recordAPIStats] that
    [updateStats] reads. *)
Record Request := { URL_Path : string; Method : string }.
Record recordAPIStats := { respStatusCode : Z; isS3Request : bool }.

Section UpdateStats.

(** The constant [prometheusMetricsPath] is declared in another file of
    the package, and the duration is a [float64] that is only handed
    on to the histogram. *)
Variable prometheusMetricsPath : string.
Variable float64 : Type.

(** The histogram [httpRequestsDuration]: the observations made, newest
    last, each under its [api] label.  The request is taken to carry its
    URL, and the label value to be one the histogram accepts: on a
    request without URL, and on a label value that is no valid UTF-8,
    the code panics, and these calls are left out of the model. *)
Definition histogram := list (string * float64).

Definition updateStats (h : heap) (st : HTTPStats) (hist : histogram)
    (api : string) (r : Request) (w : recordAPIStats)
    (durationSecs : float64)
  : res (heap * HTTPStats * histogram) :=
  let successReq :=
    (respStatusCode w >=? 200) && (respStatusCode w <? 300) in
  '(h, st) ←
    (if isS3Request w && negb (HasSuffix (URL_Path r) prometheusMetricsPath)
     then
       '(h, t) ← on_field h (totalS3Requests st)
                    (Inc h (Some (totalS3Requests st)) api);
       let st := {| currentS3Requests := currentS3Requests st;
                    totalS3Requests := t;
                    totalS3Errors := totalS3Errors st |} in
       if negb successReq && negb (respStatusCode w =? 0) then
         '(h, e) ← on_field h (totalS3Errors st)
                      (Inc h (Some (totalS3Errors st)) api);
         Ok (h, {| currentS3Requests := currentS3Requests st;
                   totalS3Requests := totalS3Requests st;
                   totalS3Errors := e |})
       else Ok (h, st)
     else Ok (h, st));
  if isS3Request w && String.eqb (Method r) "GET" then
    Ok (h, st, hist ++ [(api, durationSecs)])
  else Ok (h, st, hist).

End UpdateStats.

(** *** Reading the tables *)

(** [m[api]] read off a table: the count, zero for a name not present. *)
Definition count_of (h : heap) (s : HTTPAPIStats) (api : string) : Z :=
  fst (map_get h (APIStats s) api).

(** One call made on a table through its address, and a run of calls. *)
Inductive call :=
| CallInc (api : string)
| CallDec (api : string).

Definition run_call (h : heap) (s : HTTPAPIStats) (c : call)
  : res (heap * HTTPAPIStats) :=
  on_field h s
    match c with
    | CallInc api => Inc h (Some s) api
    | CallDec api => Dec h (Some s) api
    end.

Fixpoint run_calls (h : heap) (s : HTTPAPIStats) (cs : list call)
  : res (heap * HTTPAPIStats) :=
  match cs with
  | [] => Ok (h, s)
  | c :: cs => '(h, s) ← run_call h s c; run_calls h s cs
  end.

(** Every count stored in the table lies in [[lo, hi]]. *)
Definition counts_within (lo hi : Z) (h : heap) (s : HTTPAPIStats) : Prop :=
  forall api v, table h (APIStats s) !! api = Some v -> lo <= v <= hi.

(** The map a struct refers to, if any, is in the store. *)
Definition allocated (h : heap) (s : HTTPAPIStats) : Prop :=
  forall l, APIStats s = Some l -> (l < length h)%nat.

(** Two structs do not share a map. *)
Definition apart (s t : HTTPAPIStats) : Prop :=
  forall l, APIStats s = Some l -> APIStats t <> Some l.

(** The request and error tables of [st] are in the store and distinct,
    as they are in every state built by [newHTTPStats] and the methods. *)
Definition well_formed (h : heap) (st : HTTPStats) : Prop :=
  allocated h (totalS3Requests st) /\
  allocated h (totalS3Errors st) /\
  apart (totalS3Requests st) (totalS3Errors st).

(** The three pairs (live table, map of the report) of a snapshot. *)
Definition snapshot_pairs (st : HTTPStats) (snap : ServerHTTPStats)
  : list (HTTPAPIStats * mapref) :=
  [ (currentS3Requests st, Server_APIStats (CurrentS3Requests snap));
    (totalS3Requests st, Server_APIStats (TotalS3Requests snap));
    (totalS3Errors st, Server_APIStats (TotalS3Errors snap)) ].

(** *** Runs of calls on the byte counters *)

(** The four counters of [ConnStats], each with its increment and its
    read. *)
Inductive counter := TotalInput | TotalOutput | S3Input | S3Output.

#[global] Instance counter_eq_dec : EqDecision counter.
Proof. solve_decision. Defined.

Definition inc (c : counter) (s : ConnStats) (n : Z) : ConnStats :=
  match c with
  | TotalInput => incInputBytes s n
  | TotalOutput => incOutputBytes s n
  | S3Input => incS3InputBytes s n
  | S3Output => incS3OutputBytes s n
  end.

Definition get (c : counter) (s : ConnStats) : Z :=
  match c with
  | TotalInput => getTotalInputBytes s
  | TotalOutput => getTotalOutputBytes s
  | S3Input => getS3InputBytes s
  | S3Output => getS3OutputBytes s
  end.

(** The increments of a run, one after the other. *)
Definition run_incs (s : ConnStats) (ops : list (counter * Z)) : ConnStats :=
  fold_left (fun s op => inc (fst op) s (snd op)) ops s.

(** The sum of the amounts a run adds to counter [c]. *)
Fixpoint added (c : counter) (ops : list (counter * Z)) : Z :=
  match ops with
  | [] => 0
  | (c', n) :: ops => (if decide (c' = c) then n else 0) + added c ops
  end.

(** The counters hold [uint64] values. *)
Definition uint64_state (s : ConnStats) : Prop :=
  forall c, 0 <= get c s < 2 ^ 64.

(** *** The count a run of calls should leave *)

(** A counter that goes up by one on [Inc] of its name and down by one,
    not below zero, on [Dec] of its name. *)
Fixpoint net_count (api : string) (cs : list call) (v : Z) : Z :=
  match cs with
  | [] => v
  | CallInc a :: cs => net_count api cs (if decide (a = api) then v + 1 else v)
  | CallDec a :: cs =>
    net_count api cs (if decide (a = api) then (if 0 <? v then v - 1 else v) else v)
  end.

(** Whether a call is a [Dec]. *)
Definition is_dec (c : call) : bool :=
  match c with
  | CallDec _ => true
  | CallInc _ => false
  end.

End Stats.

(** ** [cmd/posix-list-dir_other.go] *)

Module Dir.
Import Go.

(** *** The host: errors, file modes, directory streams *)

(** The system errors the listing can meet, with the text [Error()]
    gives for each. *)
Inductive Errno := ENOENT | ENOTDIR | EACCES | EIO | ELOOP | EMFILE.

Definition Errno_Error (e : Errno) : string :=
  match e with
  | ENOENT => "no such file or directory"
  | ENOTDIR => "not a directory"
  | EACCES => "permission denied"
  | EIO => "input/output error"
  | ELOOP => "too many levels of symbolic links"
  | EMFILE => "too many open files"
  end.

(** [*os.PathError]: what [os.Open], [os.Stat] and [Readdir] fail with. *)
Record PathError := { Op : string; Path : string; Err : Errno }.

Definition PathError_Error (e : PathError) : string :=
  Op e +:+ " " +:+ Path e +:+ ": " +:+ Errno_Error (Err e).

Definition os_IsNotExist (e : PathError) : bool :=
  match Err e with
  | ENOENT => true
  | _ => false
  end.

(** The [error] values [readDirN] handles or returns. *)
Inductive error :=
| errFileNotFound
| io_EOF
| os_error (e : PathError).

(** [os.FileMode] and its type bits. *)
Definition FileMode := Z.
Definition ModeDir : FileMode := Z.shiftl 1 31.
Definition ModeSymlink : FileMode := Z.shiftl 1 27.
Definition ModeDevice : FileMode := Z.shiftl 1 26.
Definition ModeNamedPipe : FileMode := Z.shiftl 1 25.
Definition ModeSocket : FileMode := Z.shiftl 1 24.
Definition ModeCharDevice : FileMode := Z.shiftl 1 21.
Definition ModeIrregular : FileMode := Z.shiftl 1 19.
Definition ModeType : FileMode :=
  Z.lor ModeDir (Z.lor ModeSymlink (Z.lor ModeNamedPipe
    (Z.lor ModeSocket (Z.lor ModeDevice (Z.lor ModeCharDevice ModeIrregular))))).

Definition IsDir (m : FileMode) : bool := negb (Z.land m ModeDir =? 0).
Definition IsRegular (m : FileMode) : bool := Z.land m ModeType =? 0.

(** The test [m&os.ModeSymlink == os.ModeSymlink]. *)
Definition isSymlink (m : FileMode) : bool :=
  Z.land m ModeSymlink =? ModeSymlink.

Record FileInfo := { Name : string; Mode : FileMode }.

(** What is left to read of an open directory: the entries in the order
    the system hands them out and, behind them, the end of the directory
    or a read failure (of the directory itself or of the [lstat] of the
    entry that would come next). *)
Record dirstream := { dents : list FileInfo; fault : option Errno }.

(** The file system as the listing sees it: opening a directory by path
    and the follow-stat of a path. *)
Record FS := {
  fs_open : string -> Errno + dirstream;
  fs_stat : string -> Errno + FileInfo
}.

(** An open [*os.File]. *)
Record File := { f_name : string; f_stream : dirstream }.

Definition os_Open (fs : FS) (name : string) : PathError + File :=
  match fs_open fs name with
  | inl e => inl {| Op := "open"; Path := name; Err := e |}
  | inr ds => inr {| f_name := name; f_stream := ds |}
  end.

Definition os_Stat (fs : FS) (name : string) : PathError + FileInfo :=
  match fs_stat fs name with
  | inl e => inl {| Op := "stat"; Path := name; Err := e |}
  | inr fi => inr fi
  end.

Definition end_of (f : File) : option error :=
  match fault (f_stream f) with
  | Some e => Some (os_error {| Op := "readdirent"; Path := f_name f; Err := e |})
  | None => None
  end.

(** The handle after [n] entries have been read from it. *)
Definition advance (f : File) (n : nat) : File :=
  {| f_name := f_name f;
     f_stream := {| dents := drop n (dents (f_stream f));
                    fault := fault (f_stream f) |} |}.

(** Whether a read of [n] entries runs into the read failure of the
    stream: there is one, and fewer than [n] entries lie before it. *)
Definition hits_fault (f : File) (n : nat) : bool :=
  match fault (f_stream f) with
  | Some _ => (length (dents (f_stream f)) <? n)%nat
  | None => false
  end.

(** [f.Readdir(n)]: for [n > 0] the next [n] entries, or those that are
    left when they are fewer; when the read fails before [n] entries are
    gathered, the entries gathered so far together with the error; an
    empty slice only together with an error, [io.EOF] at the end of the
    directory.  For [n <= 0] all the entries at once, with the error if
    the read fails. *)
Definition Readdir (f : File) (n : Z) : File * list FileInfo * option error :=
  let ds := dents (f_stream f) in
  if n >? 0 then
    if hits_fault f (Z.to_nat n) then (advance f (length ds), ds, end_of f)
    else
      match ds with
      | [] => (f, [], Some io_EOF)
      | _ :: _ => (advance f (Z.to_nat n), take (Z.to_nat n) ds, None)
      end
  else (advance f (length ds), ds, end_of f).

(** *** readDirN *)

(** The listing's variables: the names gathered, the budget left, and
    the lines handed to the logger (the [path] tag and the error). *)
Record scan := {
  entries : list string;
  remaining : Z;
  logged : list (string * PathError)
}.

(** The value [readDirN] returns, and what it has logged by then. *)
Record outcome := {
  out_entries : list string;
  out_err : option error;
  out_log : list (string * PathError)
}.

Section ReadDirN.

(** [path.Join] of the standard library and the package's constant
    [SlashSeparator], declared in another file. *)
Variable path_Join : string -> string -> string.
Variable SlashSeparator : string.

Variable fs : FS.
Variable dirPath : string.

(** **** What the listing is to report

    The kind of an entry as the specification has it: a link counts as
    what one follow-stat of its path finds, an entry that is no link as
    what its own mode says; a link that does not resolve is skipped. *)

Inductive kind := Directory | RegularFile | Skipped.

#[global] Instance kind_eq_dec : EqDecision kind.
Proof. solve_decision. Defined.

Definition kind_of_mode (m : FileMode) : kind :=
  if IsDir m then Directory
  else if IsRegular m then RegularFile
  else Skipped.

Definition unresolved (fi : FileInfo) : bool :=
  isSymlink (Mode fi) &&
  match os_Stat fs (path_Join dirPath (Name fi)) with
  | inl _ => true
  | inr _ => false
  end.

Definition resolve (fi : FileInfo) : kind :=
  if isSymlink (Mode fi) then
    match os_Stat fs (path_Join dirPath (Name fi)) with
    | inl _ => Skipped
    | inr st => kind_of_mode (Mode st)
    end
  else kind_of_mode (Mode fi).

(** The names an entry contributes to the listing: none or one. *)
Definition listed (fi : FileInfo) : list string :=
  match resolve fi with
  | Directory => [Name fi +:+ SlashSeparator]
  | RegularFile => [Name fi]
  | Skipped => []
  end.

(** The log lines an entry causes: one for a link that does not resolve. *)
Definition complaint (fi : FileInfo) : list (string * PathError) :=
  if isSymlink (Mode fi) then
    match os_Stat fs (path_Join dirPath (Name fi)) with
    | inl err => [(path_Join dirPath (Name fi), err)]
    | inr _ => []
    end
  else [].

(** How many entries of a directory are of a given kind. *)
Definition count_kind (k : kind) (fis : list FileInfo) : nat :=
  length (filter (fun fi => resolve fi = k) fis).

(** The entries of a batch that take from the budget of a bounded
    listing: all but the links that do not resolve. *)
Definition charged (fis : list FileInfo) : Z :=
  Z.of_nat (length (filter (fun fi => unresolved fi = false) fis)).

(** **** The code *)

Variable count : Z.

(** The body of [for _, fi := range fis]. *)
Definition visit (s : scan) (fi : FileInfo) : scan :=
  if isSymlink (Mode fi) then
    match os_Stat fs (path_Join dirPath (Name fi)) with
    | inl err =>
      {| entries := entries s;
         remaining := remaining s;
         logged := logged s ++ [(path_Join dirPath (Name fi), err)] |}
    | inr st =>
      {| entries :=
           if IsDir (Mode st) then entries s ++ [Name fi +:+ SlashSeparator]
           else if IsRegular (Mode st) then entries s ++ [Name fi]
           else entries s;
         remaining :=
           if count >? 0 then decr (remaining s) else remaining s;
         logged := logged s |}
    end
  else
    {| entries :=
         if IsDir (Mode fi) then entries s ++ [Name fi +:+ SlashSeparator]
         else if IsRegular (Mode fi) then entries s ++ [Name fi]
         else entries s;
       remaining :=
         if count >? 0 then decr (remaining s) else remaining s;
       logged := logged s |}.

(** [fis[:hi]], taken by the loop only for [hi <= len(fis)]; a negative
    bound panics. *)
Definition slice_to (fis : list FileInfo) (hi : Z) : res (list FileInfo) :=
  if hi <? 0 then Panicked SliceBounds
  else Ok (take (Z.to_nat hi) fis).

Definition returns (es : list string) (err : option error) (s : scan)
  : option (res outcome) :=
  Some (Ok {| out_entries := es; out_err := err; out_log := logged s |}).

(** The loop [for !done]; [None] when the iteration bound [fuel] of the
    model runs out before the loop ends. *)
Fixpoint read_loop (fuel : nat) (d : File) (maxEntries : Z) (s : scan)
  : option (res outcome) :=
  match fuel with
  | O => None
  | S fuel =>
    let '(d, fis, err) := Readdir d maxEntries in
    match err with
    | Some io_EOF => returns (entries s) None s
    | Some e => returns [] (Some e) s
    | None =>
      let cut : res (list FileInfo * bool) :=
        if (count >? 0) && (remaining s <=? Z.of_nat (length fis)) then
          fis ← slice_to fis (remaining s); Ok (fis, true)
        else Ok (fis, false) in
      match cut with
      | Panicked p => Some (Panicked p)
      | Ok (fis, done) =>
        let s := fold_left visit fis s in
        if done then returns (entries s) None s
        else read_loop fuel d maxEntries s
      end
    end
  end.

(** [maxEntries]: a thousand, or the count when that is positive and
    smaller. *)
Definition maxEntries_of (count : Z) : Z :=
  if (count >? 0) && (count <? 1000) then count else 1000.

(** The deferred [d.Close()] has no part in what the call returns. *)
Definition readDirN : option (res outcome) :=
  match os_Open fs dirPath with
  | inl err =>
    let failed e :=
      Some (Ok {| out_entries := []; out_err := Some e; out_log := [] |}) in
    if os_IsNotExist err then failed errFileNotFound
    else if Contains (PathError_Error err) "not a directory" then
      failed errFileNotFound
    else failed (os_error err)
  | inr d =>
    let maxEntries := maxEntries_of count in
    read_loop (S (length (dents (f_stream d)))) d maxEntries
      {| entries := []; remaining := count; logged := [] |}
  end.

End ReadDirN.

(** The loop's invariant for a bounded listing: budget left, and names
    gathered plus budget left within the bound. *)
Definition within_budget (count : Z) (s : scan) : Prop :=
  0 < count ->
  0 < remaining s <= count /\
  Z.of_nat (length (entries s)) + remaining s <= count.

(** [readDir]: all the entries. *)
Definition readDir (path_Join : string -> string -> string)
    (SlashSeparator : string) (fs : FS) (dirPath : string)
  : option (res outcome) :=
  readDirN path_Join SlashSeparator fs dirPath (-1).

End Dir.

(** ** Sample directories *)

Module Sample.
Import Go Dir.

(** [path.Join] on clean, non-empty elements. *)
Definition join (a b : string) : string := a +:+ "/" +:+ b.

(** Entries with the permission bits [0644], [0755] and [0777]. *)
Definition file (name : string) : FileInfo :=
  {| Name := name; Mode := 420 |}.
Definition subdir (name : string) : FileInfo :=
  {| Name := name; Mode := Z.lor ModeDir 493 |}.
Definition link (name : string) : FileInfo :=
  {| Name := name; Mode := Z.lor ModeSymlink 511 |}.
Definition device (name : string) : FileInfo :=
  {| Name := name; Mode := Z.lor ModeDevice 420 |}.

(** A directory [d] of five entries: a link to nowhere, a file, a
    subdirectory, a device and a link to the subdirectory. *)
Definition mixed : FS :=
  {| fs_open := fun p =>
       if String.eqb p "d" then
         inr {| dents := [link "gone"; file "a"; subdir "sub";
                          device "null"; link "ld"];
                fault := None |}
       else inl ENOENT;
     fs_stat := fun p =>
       if String.eqb p "d/ld" then inr (subdir "sub") else inl ENOENT |}.

(** A directory [d] whose one entry is a regular file. *)
Definition one_file : FS :=
  {| fs_open := fun p =>
       if String.eqb p "d" then inr {| dents := [file "a"]; fault := None |}
       else inl ENOENT;
     fs_stat := fun _ => inl ENOENT |}.

(** A directory [d] that holds [fis] and whose reading fails with [EIO]
    behind them. *)
Definition broken (fis : list FileInfo) : FS :=
  {| fs_open := fun p =>
       if String.eqb p "d" then inr {| dents := fis; fault := Some EIO |}
       else inl ENOENT;
     fs_stat := fun _ => inl ENOENT |}.


(** A directory named [not a directory] that the caller may not enter. *)
Definition denied : FS :=
  {| fs_open := fun p =>
       if String.eqb p "not a directory/x" then inl EACCES else inl ENOENT;
     fs_stat := fun _ => inl ENOENT |}.

(** The files [f0], [f1], ... *)
Definition numbered (k : nat) : list FileInfo :=
  map (fun i => file ("f" +:+ NilEmpty.string_of_uint (Nat.to_uint i)))
      (seq 0 k).

(** A directory [d] of 1002 entries: [first], then 1001 regular files. *)
Definition crowded (first : FileInfo) : FS :=
  {| fs_open := fun p =>
       if String.eqb p "d" then
         inr {| dents := first :: numbered 1001; fault := None |}
       else inl ENOENT;
     fs_stat := fun _ => inl ENOENT |}.

End Sample.

(** * Facts about the machine integers *)

Section GoFacts.
Import Go.

Lemma wrap_id z : in_range z -> wrap z = z.
Proof.
  unfold in_range, wrap, min_int, max_int, bits. intros H.
  rewrite Z.mod_small; lia.
Qed.

Lemma incr_small z : min_int <= z < max_int -> incr z = z + 1.
Proof. intros H. apply wrap_id. unfold in_range. lia. Qed.

Lemma decr_small z : min_int < z <= max_int -> decr z = z - 1.
Proof. intros H. apply wrap_id. unfold in_range. lia. Qed.

Lemma incr_max : incr max_int = min_int.
Proof. reflexivity. Qed.

Lemma min_int_neg : min_int < 0.
Proof. reflexivity. Qed.

End GoFacts.

(** * The byte counters *)

Section ConnFacts.
Import Go Stats.

(** Adding [b], [t] times over, one call after the other, leaves the
    counter at [t * b] modulo [2^64]. *)
Lemma incInputBytes_repeated (t : nat) (b : Z) :
  totalInputBytes (Nat.iter t (fun s => incInputBytes s b) newConnStats)
  = (Z.of_nat t * b) mod 2 ^ 64.
Proof.
  induction t as [|t IH]; [done|].
  rewrite Nat2Z.inj_succ, Nat.iter_succ.
  unfold incInputBytes at 1. cbn [totalInputBytes]. rewrite IH. unfold atomic_Add, to_uint64, wrap_u64.
  rewrite <-Zplus_mod. f_equal. lia.
Qed.

End ConnFacts.

(** * The counter tables *)

Section StatsFacts.
Import Go Stats.

#[local] Arguments table : simpl never.

Lemma table_insert_same (h : heap) l m :
  (l < length h)%nat -> table (<[l := m]> h) (Some l) = m.
Proof. intros Hl. unfold table. by rewrite list_lookup_insert_eq. Qed.

Lemma table_insert_other (h : heap) l l' m :
  l <> l' -> table (<[l := m]> h) (Some l') = table h (Some l').
Proof. intros Hne. unfold table. by rewrite list_lookup_insert_ne. Qed.

Lemma table_insert_dangling (h : heap) l m :
  (length h <= l)%nat -> <[l := m]> h = h.
Proof. intros Hl. by apply list_insert_ge. Qed.

Lemma table_dangling (h : heap) l :
  (length h <= l)%nat -> table h (Some l) = ∅.
Proof. intros Hl. unfold table. by rewrite lookup_ge_None_2. Qed.

Lemma table_made (h : heap) m : table (h ++ [m]) (Some (length h)) = m.
Proof. unfold table. by rewrite list_lookup_middle. Qed.

Lemma table_kept (h : heap) m l :
  (l < length h)%nat -> table (h ++ [m]) (Some l) = table h (Some l).
Proof. intros Hl. unfold table. by rewrite lookup_app_l. Qed.

(** What [Inc] does to a receiver that is not nil. *)
Lemma Inc_locked_spec h s api :
  exists h' s',
    Inc_locked h s api = Ok (h', s') /\
    (length h <= length h')%nat /\
    (forall l, APIStats s = Some l -> s' = s /\ length h' = length h) /\
    (APIStats s = None -> APIStats s' = Some (length h)) /\
    (allocated h s ->
       allocated h' s' /\
       table h' (APIStats s') =
         <[api := match table h (APIStats s) !! api with
                  | Some v => incr v
                  | None => 1
                  end]> (table h (APIStats s))) /\
    (forall l, (l < length h)%nat -> APIStats s <> Some l ->
               table h' (Some l) = table h (Some l)).
Proof.
  unfold Inc_locked. destruct s as [[l|]]; simpl.
  - unfold map_get.
    assert (forall w, exists h' s',
      Ok (<[l := <[api := w]> (table h (Some l))]> h, {| APIStats := Some l |})
        = Ok (h', s') /\
      (length h <= length h')%nat /\
      (forall l0, Some l = Some l0 ->
         s' = {| APIStats := Some l |} /\ length h' = length h) /\
      (Some l = None -> APIStats s' = Some (length h)) /\
      (allocated h {| APIStats := Some l |} ->
         allocated h' s' /\
         table h' (APIStats s') = <[api := w]> (table h (Some l))) /\
      (forall l0, (l0 < length h)%nat -> Some l <> Some l0 ->
         table h' (Some l0) = table h (Some l0))) as Hset.
    { intros w. eexists _, _. split; [reflexivity|]. rewrite length_insert.
      split; [lia|]. split; [done|]. split; [done|]. split.
      - intros Hal. pose proof (Hal l eq_refl) as Hl. simpl. split.
        + intros ? [= <-]. by rewrite length_insert.
        + apply table_insert_same. exact Hl.
      - intros l0 _ Hne. apply table_insert_other. congruence. }
    destruct (table h (Some l) !! api) as [v|] eqn:Hv; simpl; apply Hset.
  - unfold map_get. rewrite (table_made h ∅), lookup_empty. simpl.
    eexists _, _. split; [reflexivity|].
    rewrite length_insert, length_app. simpl.
    split; [lia|]. split; [done|]. split; [done|]. split.
    + intros _. split.
      * intros ? [= <-]. rewrite length_insert, length_app. simpl. lia.
      * rewrite table_insert_same by (rewrite length_app; simpl; lia).
        unfold table. by rewrite lookup_empty.
    + intros l' Hl' _. rewrite table_insert_other by lia.
      by apply table_kept.
Qed.

(** What [Dec] does to a receiver that is not nil. *)
Lemma Dec_locked_spec h s api :
  exists h',
    Dec_locked h s api = Ok (h', s) /\
    length h' = length h /\
    match table h (APIStats s) !! api with
    | Some v =>
      if decide (0 < v)
      then table h' (APIStats s) = <[api := decr v]> (table h (APIStats s)) /\
           forall l, APIStats s <> Some l -> table h' (Some l) = table h (Some l)
      else h' = h
    | None => h' = h
    end.
Proof.
  unfold Dec_locked, map_get.
  destruct (table h (APIStats s) !! api) as [v|] eqn:Hv; simpl.
  - case_decide as Hpos.
    + assert ((v >? 0) = true) as -> by lia.
      destruct s as [[l|]]; simpl in *.
      * eexists. split; [reflexivity|]. split; [by rewrite length_insert|].
        destruct (decide (l < length h)%nat) as [Hl|Hl].
        -- split; [by rewrite table_insert_same|].
           intros l' Hne. apply table_insert_other. congruence.
        -- rewrite table_dangling in Hv by lia. by rewrite lookup_empty in Hv.
      * unfold table in Hv. by rewrite lookup_empty in Hv.
    + assert ((v >? 0) = false) as -> by lia. by eexists.
  - by eexists.
Qed.

Lemma Inc_locked_dangling h s api l :
  APIStats s = Some l -> (length h <= l)%nat -> Inc_locked h s api = Ok (h, s).
Proof.
  intros Hs Hl. destruct s as [m]. simpl in Hs. subst m.
  unfold Inc_locked, map_get. simpl.
  rewrite (table_dangling h l), lookup_empty by done. simpl.
  by rewrite table_insert_dangling.
Qed.

Lemma on_field_finish h s r : on_field h s (finish r) = r.
Proof. by destruct r as [[??]|]. Qed.

Lemma run_call_Inc h s api : run_call h s (CallInc api) = Inc_locked h s api.
Proof. apply on_field_finish. Qed.

Lemma run_call_Dec h s api : run_call h s (CallDec api) = Dec_locked h s api.
Proof. apply on_field_finish. Qed.

Lemma run_calls_app h s cs1 cs2 :
  run_calls h s (cs1 ++ cs2) =
  '(h1, s1) ← run_calls h s cs1; run_calls h1 s1 cs2.
Proof.
  revert h s. induction cs1 as [|c cs1 IH]; intros h s; simpl; [done|].
  destruct (run_call h s c) as [[h1 s1]|p]; simpl; [apply IH|done].
Qed.

Lemma count_of_lookup h s api :
  incr (count_of h s api) =
  match table h (APIStats s) !! api with
  | Some v => incr v
  | None => 1
  end.
Proof.
  unfold count_of, map_get. by destruct (table h (APIStats s) !! api).
Qed.

(** [Inc] keeps the counts within bounds that leave room for one more. *)
Lemma Inc_counts_within h s api hi :
  0 <= hi < max_int ->
  counts_within 0 hi h s ->
  exists h' s', Inc_locked h s api = Ok (h', s') /\
                counts_within 0 (hi + 1) h' s'.
Proof.
  intros Hhi Hin.
  destruct (APIStats s) as [l|] eqn:Hs.
  - destruct (decide (l < length h)%nat) as [Hl|Hl].
    + destruct (Inc_locked_spec h s api)
        as (h' & s' & -> & _ & _ & _ & Hal & _).
      destruct Hal as [_ Htab]; [by intros ? [= <-]%(eq_trans (eq_sym Hs))|].
      eexists _, _. split; [reflexivity|].
      intros k v. rewrite Htab. destruct (decide (k = api)) as [->|Hne].
      * rewrite lookup_insert_eq. intros [= <-].
        destruct (table h (APIStats s) !! api) as [v|] eqn:Hv.
        -- apply Hin in Hv. rewrite incr_small; unfold min_int, bits; lia.
        -- lia.
      * rewrite lookup_insert_ne by done. intros Hv%Hin. lia.
    + rewrite (Inc_locked_dangling h s api l) by (done || lia).
      eexists _, _. split; [reflexivity|].
      intros k v Hv%Hin. lia.
  - destruct (Inc_locked_spec h s api)
      as (h' & s' & -> & _ & _ & _ & Hal & _).
    destruct Hal as [_ Htab]; [intros ?; congruence|].
    eexists _, _. split; [reflexivity|].
    intros k v. rewrite Htab, Hs. unfold table at 1 2. rewrite lookup_empty.
    destruct (decide (k = api)) as [->|Hne].
    + rewrite lookup_insert_eq. intros [= <-]. lia.
    + rewrite lookup_insert_ne, lookup_empty by done. done.
Qed.

(** [Dec] keeps the counts within their bounds. *)
Lemma Dec_counts_within h s api hi :
  hi <= max_int ->
  counts_within 0 hi h s ->
  exists h', Dec_locked h s api = Ok (h', s) /\ counts_within 0 hi h' s.
Proof.
  intros Hhi Hin.
  destruct (Dec_locked_spec h s api) as (h' & -> & _ & Hcase).
  exists h'. split; [done|].
  destruct (table h (APIStats s) !! api) as [v|] eqn:Hv; [|by subst].
  case_decide as Hpos; [|by subst].
  destruct Hcase as [Htab _]. intros k w. rewrite Htab.
  destruct (decide (k = api)) as [->|Hne].
  - rewrite lookup_insert_eq. intros [= <-]. apply Hin in Hv.
    rewrite decr_small; unfold min_int, bits; lia.
  - rewrite lookup_insert_ne by done. apply Hin.
Qed.

Lemma counts_within_weaken lo hi hi' h s :
  hi <= hi' -> counts_within lo hi h s -> counts_within lo hi' h s.
Proof. intros Hle Hin k v Hv%Hin. lia. Qed.

Lemma run_calls_counts_within cs : forall h s hi,
  0 <= hi ->
  hi + Z.of_nat (length cs) <= max_int ->
  counts_within 0 hi h s ->
  exists h' s', run_calls h s cs = Ok (h', s') /\
                counts_within 0 (hi + Z.of_nat (length cs)) h' s'.
Proof.
  induction cs as [|c cs IH]; intros h s hi Hhi Hroom Hin.
  - exists h, s. split; [done|]. simpl. by rewrite Z.add_0_r.
  - rewrite length_cons, Nat2Z.inj_succ in *. simpl. destruct c as [api|api].
    + rewrite run_call_Inc.
      destruct (Inc_counts_within h s api hi) as (h1 & s1 & -> & Hin1);
        [lia|done|]. simpl.
      destruct (IH h1 s1 (hi + 1)) as (h' & s' & -> & Hin'); [lia|lia|done|].
      eexists _, _. split; [done|].
      eapply counts_within_weaken; [|exact Hin']. lia.
    + rewrite run_call_Dec.
      destruct (Dec_counts_within h s api hi) as (h1 & -> & Hin1);
        [lia|done|]. simpl.
      destruct (IH h1 s hi) as (h' & s' & -> & Hin'); [lia|lia|done|].
      eexists _, _. split; [done|].
      eapply counts_within_weaken; [|exact Hin']. lia.
Qed.

End StatsFacts.

(** * Claims about the counter tables *)

Section StatsClaims.
Import Go Stats.

#[local] Arguments table : simpl never.

Lemma table_singleton (m : gmap string Z) : table [m] (Some 0%nat) = m.
Proof. reflexivity. Qed.

(** One more [Inc] of a name whose count stands alone in the table. *)
Lemma Inc_on_singleton api k :
  run_call [ {[api := k]} ] {| APIStats := Some 0%nat |} (CallInc api)
  = Ok ([ {[api := incr k]} ], {| APIStats := Some 0%nat |}).
Proof.
  rewrite run_call_Inc. unfold Inc_locked, map_get. simpl.
  unfold table. simpl. rewrite lookup_singleton_eq. simpl.
  by rewrite insert_singleton_eq.
Qed.

(** [n] calls of [Inc] in a row add [n], as long as the count has room. *)
Lemma Inc_repeated api n : forall k,
  min_int <= k -> k + Z.of_nat n <= max_int ->
  run_calls [ {[api := k]} ] {| APIStats := Some 0%nat |}
            (repeat (CallInc api) n)
  = Ok ([ {[api := k + Z.of_nat n]} ], {| APIStats := Some 0%nat |}).
Proof.
  induction n as [|n IH]; intros k Hlo Hhi.
  - simpl. by rewrite Z.add_0_r.
  - rewrite Nat2Z.inj_succ in Hhi.
    change (repeat (CallInc api) (S n))
      with (CallInc api :: repeat (CallInc api) n).
    cbn [run_calls]. rewrite Inc_on_singleton. cbn [mbind res_bind bind].
    rewrite incr_small by lia. rewrite IH by lia.
    do 3 f_equal. rewrite Nat2Z.inj_succ. f_equal. lia.
Qed.

(** The first [Inc] on a fresh table makes the map and stores 1. *)
Lemma Inc_first api :
  run_call [] {| APIStats := None |} (CallInc api)
  = Ok ([ {[api := 1]} ], {| APIStats := Some 0%nat |}).
Proof.
  rewrite run_call_Inc. unfold Inc_locked, map_get. simpl.
  unfold table. simpl. rewrite lookup_empty. simpl. by rewrite insert_empty.
Qed.

(** A fresh table takes [max_int] calls of [Inc]; the next one wraps. *)
Lemma Inc_overflows api n :
  Z.of_nat n = max_int - 1 ->
  run_calls [] {| APIStats := None |} (repeat (CallInc api) (1 + (n + 1)))
  = Ok ([ {[api := min_int]} ], {| APIStats := Some 0%nat |}).
Proof.
  intros Hn. rewrite !repeat_app, run_calls_app.
  change (repeat (CallInc api) 1) with [CallInc api].
  cbn [run_calls]. rewrite Inc_first. cbn [mbind res_bind bind].
  rewrite run_calls_app.
  rewrite Inc_repeated by (unfold min_int, bits; lia).
  cbn [mbind res_bind bind run_calls].
  rewrite Inc_on_singleton. cbn [mbind res_bind bind].
  replace (1 + Z.of_nat n) with max_int by lia.
  by rewrite incr_max.
Qed.

(** C3, counterexample: [2^63] calls of [Inc] on a fresh table leave the
    count of the name at [min_int = -2^63]: the [int] counter wraps
    around, and the table holds a negative count. *)
Lemma C3_counterexample_inc_wraps :
  run_calls [] {| APIStats := None |}
            (repeat (CallInc "GetObject") (Z.to_nat (2 ^ 63)))
  = Ok ([ {["GetObject" := min_int]} ], {| APIStats := Some 0%nat |})
  /\ min_int = - 2 ^ 63
  /\ ~ (forall api v,
          table [ {["GetObject" := min_int]} ] (Some 0%nat) !! api = Some v ->
          0 <= v).
Proof.
  split; [|split].
  - replace (Z.to_nat (2 ^ 63))
      with (1 + (Z.to_nat (max_int - 1) + 1))%nat
      by (unfold max_int, bits; lia).
    apply Inc_overflows. apply Z2Nat.id. unfold max_int, bits. lia.
  - reflexivity.
  - intros Hin. pose proof (Hin "GetObject" min_int) as Hneg.
    rewrite table_singleton, lookup_singleton_eq in Hneg.
    pose proof (Hneg eq_refl) as Hlo. pose proof min_int_neg. lia.
Qed.

(** C3 (amended): [Dec] lowers a count only when the name is present with
    a value above zero and leaves the store as it is otherwise, so it never
    makes a count negative; and from a table whose counts lie in
    [[0, bound]], every run of [Inc] and [Dec] calls that stays below the
    largest [int] ([bound] plus the number of calls at most [2^63 - 1])
    leaves every count non-negative. *)
Theorem C3_counts_nonneg_below_overflow :
  (forall h s api, exists h',
      Dec h (Some s) api = Ret h' s /\
      match table h (APIStats s) !! api with
      | Some v =>
        if decide (0 < v)
        then table h' (APIStats s) = <[api := decr v]> (table h (APIStats s)) /\
             (v <= max_int -> decr v = v - 1)
        else h' = h
      | None => h' = h
      end) /\
  (forall h s (cs : list call) bound,
      0 <= bound ->
      bound + Z.of_nat (length cs) <= max_int ->
      counts_within 0 bound h s ->
      exists h' s',
        run_calls h s cs = Ok (h', s') /\
        forall api v, table h' (APIStats s') !! api = Some v -> 0 <= v).
Proof.
  split.
  - intros h s api. destruct (Dec_locked_spec h s api) as (h' & Hrun & _ & Hcase).
    exists h'. split; [unfold Dec; simpl; by rewrite Hrun|].
    destruct (table h (APIStats s) !! api) as [v|]; [|done].
    case_decide; [|done]. destruct Hcase as [-> _]. split; [done|].
    intros Hv. apply decr_small. unfold min_int, bits. lia.
  - intros h s cs bound Hb Hroom Hin.
    destruct (run_calls_counts_within cs h s bound) as (h' & s' & Hrun & Hin');
      [done..|].
    exists h', s'. split; [done|]. intros api v Hv. by apply Hin' in Hv as [? _].
Qed.

Lemma C3_counts_nonneg_below_overflow_witness :
  exists h' s',
    run_calls [] {| APIStats := None |}
      [CallInc "GetObject"; CallDec "GetObject"; CallDec "GetObject"]
    = Ok (h', s') /\
    forall api v, table h' (APIStats s') !! api = Some v -> 0 <= v.
Proof.
  apply (proj2 C3_counts_nonneg_below_overflow
           [] {| APIStats := None |}
           [CallInc "GetObject"; CallDec "GetObject"; CallDec "GetObject"] 0).
  - lia.
  - vm_compute. discriminate.
  - intros api v Hv. simpl in Hv. unfold table in Hv.
    by rewrite lookup_empty in Hv.
Defined.

(** C9: in [Inc] and in [Dec] the return of [if stats == nil] is never
    taken.  A call on a nil receiver panics in [Lock], before the check;
    a call on a receiver that is not nil passes the check and returns
    normally, [Dec] leaving the receiver's struct as it was. *)
Theorem C9_nil_check_is_dead_code :
  forall h (stats : option HTTPAPIStats) api,
    Inc h stats api <> RetNil /\
    Dec h stats api <> RetNil /\
    match stats with
    | None =>
      Lock stats = Panicked NilDereference /\
      Inc h stats api = Fault NilDereference /\
      Dec h stats api = Fault NilDereference
    | Some s =>
      Lock stats = Ok tt /\
      (exists h' s', Inc h stats api = Ret h' s') /\
      (exists h', Dec h stats api = Ret h' s)
    end.
Proof.
  intros h [s|] api; simpl.
  - destruct (Inc_locked_spec h s api) as (h1 & s1 & HInc & _).
    destruct (Dec_locked_spec h s api) as (h2 & HDec & _).
    unfold Inc, Dec. simpl. rewrite HInc, HDec. simpl. eauto 10.
  - unfold Inc, Dec. simpl. done.
Qed.

Lemma C9_nil_check_is_dead_code_witness :
  Inc [] None "GetObject" = Fault NilDereference /\
  Dec [] None "GetObject" = Fault NilDereference /\
  Inc [] (Some {| APIStats := None |}) "GetObject" <> RetNil.
Proof.
  pose proof (C9_nil_check_is_dead_code [] None "GetObject")
    as (_ & _ & _ & HInc & HDec).
  pose proof (C9_nil_check_is_dead_code
                [] (Some {| APIStats := None |}) "GetObject") as (Hlive & _).
  exact (conj HInc (conj HDec Hlive)).
Defined.

(** C4, counterexample: a snapshot taken after one request shows the count
    of a later request too, because its map is the live table's map. *)
Lemma C4_counterexample_snapshot_follows_live_table :
  let st1 := {| currentS3Requests := {| APIStats := None |};
                totalS3Requests := {| APIStats := Some 0%nat |};
                totalS3Errors := {| APIStats := None |} |} in
  let snap := {| CurrentS3Requests := {| Server_APIStats := None |};
                 TotalS3Requests := {| Server_APIStats := Some 0%nat |};
                 TotalS3Errors := {| Server_APIStats := None |} |} in
  let h1 := [ {["GetObject" := 1]} ] in
  let h2 := [ {["GetObject" := 2]} ] in
  run_call [] (totalS3Requests newHTTPStats) (CallInc "GetObject")
    = Ok (h1, totalS3Requests st1) /\
  toServerHTTPStats st1 = Ok snap /\
  table h1 (Server_APIStats (TotalS3Requests snap)) !! "GetObject" = Some 1 /\
  run_call h1 (totalS3Requests st1) (CallInc "GetObject")
    = Ok (h2, totalS3Requests st1) /\
  table h2 (Server_APIStats (TotalS3Requests snap)) !! "GetObject" = Some 2.
Proof.
  cbv zeta. split; [apply Inc_first|]. split; [reflexivity|].
  split; [cbn [Server_APIStats TotalS3Requests];
          by rewrite table_singleton, lookup_singleton_eq|].
  split.
  - cbn [totalS3Requests]. rewrite Inc_on_singleton.
    by replace (incr 1) with 2 by reflexivity.
  - cbn [Server_APIStats TotalS3Requests].
    by rewrite table_singleton, lookup_singleton_eq.
Qed.

(** C4 (amended): the snapshot holds, for each of the three tables, the
    live table's own map value: [Load] returns the reference and no copy is
    made.  A later [Inc] or [Dec] on a table whose map was already made
    keeps that map, so the snapshot shows the table as mutated; only a
    table whose map was still nil when the snapshot was taken stays empty
    in it. *)
Theorem C4_snapshot_shares_live_maps :
  forall st, exists snap,
    toServerHTTPStats st = Ok snap /\
    forall live m, (live, m) ∈ snapshot_pairs st snap ->
      m = APIStats live /\
      (forall h c h' live',
          APIStats live <> None ->
          run_call h live c = Ok (h', live') ->
          APIStats live' = m /\
          forall api, count_of h' {| APIStats := m |} api = count_of h' live' api) /\
      (APIStats live = None -> forall h', table h' m = ∅).
Proof.
  intros st. eexists. split; [reflexivity|].
  intros live m Hin.
  assert (m = APIStats live) as ->.
  { unfold snapshot_pairs in Hin. simpl in Hin.
    rewrite !elem_of_cons, elem_of_nil in Hin.
    destruct Hin as [[= -> ->]|[[= -> ->]|[[= -> ->]|[]]]]; reflexivity. }
  split; [done|]. split.
  - intros h c h' live' Hmade Hrun.
    assert (live' = live) as ->; [|done].
    destruct (APIStats live) as [l|] eqn:Hl; [|done].
    destruct c as [api|api].
    + rewrite run_call_Inc in Hrun.
      destruct (Inc_locked_spec h live api) as (h1 & s1 & Heq & _ & Hsame & _).
      destruct (Hsame l Hl) as [-> _]. congruence.
    + rewrite run_call_Dec in Hrun.
      destruct (Dec_locked_spec h live api) as (h1 & Heq & _). congruence.
  - intros -> h'. reflexivity.
Qed.

Lemma C4_snapshot_shares_live_maps_witness :
  let st1 := {| currentS3Requests := {| APIStats := None |};
                totalS3Requests := {| APIStats := Some 0%nat |};
                totalS3Errors := {| APIStats := None |} |} in
  let h2 := [ {["GetObject" := 2]} ] in
  exists snap,
    toServerHTTPStats st1 = Ok snap /\
    Server_APIStats (TotalS3Requests snap) = Some 0%nat /\
    (forall api,
        count_of h2 {| APIStats := Server_APIStats (TotalS3Requests snap) |} api
        = count_of h2 (totalS3Requests st1) api) /\
    (forall h', table h' (Server_APIStats (CurrentS3Requests snap)) = ∅).
Proof.
  cbv zeta.
  destruct (C4_snapshot_shares_live_maps
              {| currentS3Requests := {| APIStats := None |};
                 totalS3Requests := {| APIStats := Some 0%nat |};
                 totalS3Errors := {| APIStats := None |} |})
    as (snap & Hsnap & Hpairs).
  exists snap. split; [exact Hsnap|].
  destruct (Hpairs {| APIStats := Some 0%nat |}
                   (Server_APIStats (TotalS3Requests snap)))
    as (Hm & Hlive & _);
    [apply list_elem_of_further, list_elem_of_here|].
  destruct (Hpairs {| APIStats := None |}
                   (Server_APIStats (CurrentS3Requests snap)))
    as (_ & _ & Hnil);
    [apply list_elem_of_here|].
  split; [exact Hm|]. split.
  - apply (Hlive [ {["GetObject" := 1]} ] (CallInc "GetObject")
                 [ {["GetObject" := 2]} ] {| APIStats := Some 0%nat |}).
    + discriminate.
    + exact (Inc_on_singleton "GetObject" 1).
  - apply Hnil. reflexivity.
Defined.

Lemma apart_sym s t : apart s t -> apart t s.
Proof. intros Hst l Ht Hs. by apply (Hst l). Qed.

Lemma count_of_table h s h' s' api :
  table h (APIStats s) = table h' (APIStats s') ->
  count_of h s api = count_of h' s' api.
Proof. unfold count_of, map_get. by intros ->. Qed.

(** [Inc] on one table of a pair of distinct tables: the table called
    gains one for [api], the other table is untouched. *)
Lemma Inc_step h s t api :
  allocated h s -> allocated h t -> apart s t ->
  exists h' s',
    Inc_locked h s api = Ok (h', s') /\
    allocated h' s' /\ allocated h' t /\ apart s' t /\
    table h' (APIStats s') =
      <[api := incr (count_of h s api)]> (table h (APIStats s)) /\
    table h' (APIStats t) = table h (APIStats t).
Proof.
  intros Hs Ht Hst.
  destruct (Inc_locked_spec h s api)
    as (h' & s' & Hrun & Hlen & Hsame & Hnew & Hal & Hframe).
  destruct (Hal Hs) as [Hs' Htab].
  exists h', s'. split; [done|]. split; [done|].
  assert (apart s' t) as Hst'.
  { destruct (APIStats s) as [l|] eqn:Hl.
    - destruct (Hsame l eq_refl) as [-> _]. intros l' Hl'. apply Hst. congruence.
    - intros l' Hl' Htl'. rewrite (Hnew eq_refl) in Hl'.
      injection Hl' as <-. apply Ht in Htl'. lia. }
  split; [intros l Hl; apply Ht in Hl; lia|]. split; [done|].
  split; [by rewrite Htab, count_of_lookup|].
  destruct (APIStats t) as [l|] eqn:Hl; [|done].
  apply Hframe; [by apply Ht|].
  intros Hsl. by apply (Hst l).
Qed.

Lemma outside_2xx c :
  negb ((c >=? 200) && (c <? 300)) = (c <? 200) || (300 <=? c).
Proof.
  rewrite Z.geb_leb.
  destruct (Z.leb_spec 200 c), (Z.ltb_spec c 300),
           (Z.ltb_spec c 200), (Z.leb_spec 300 c); simpl; (reflexivity || lia).
Qed.

(** C5, counterexample: a request flagged as an S3 request whose path is
    not the metrics-scrape path, and only ends in it, is not counted. *)
Lemma C5_counterexample_path_ending_in_metrics_path :
  let prometheusMetricsPath := "/prometheus/metrics" in
  let r := {| URL_Path := "/bucket/prometheus/metrics"; Method := "PUT" |} in
  let w := {| respStatusCode := 200; isS3Request := true |} in
  isS3Request w = true /\
  URL_Path r <> prometheusMetricsPath /\
  updateStats prometheusMetricsPath Z [] newHTTPStats [] "PutObject" r w 5
  = Ok ([], newHTTPStats, []).
Proof. cbv zeta. split; [done|]. split; [done|]. reflexivity. Qed.

(** C5 (amended): [updateStats] adds one to [totalS3Requests[api]] exactly
    when the response is flagged as an S3 request and the request path
    does not end in the metrics-scrape path [prometheusMetricsPath]; given
    that, it adds one to [totalS3Errors[api]] exactly when the status code
    is outside [[200,300)] and not zero; in every other case the table is
    left as it was.  "Adds one" is Go's [++] on the [int] count, zero for
    a name not yet present, which is [+ 1] below the largest [int]. *)
Theorem C5_updateStats_counts :
  forall (prometheusMetricsPath : string) (float64 : Type)
         h st (hist : histogram float64) api r w (durationSecs : float64),
    well_formed h st ->
    let counted :=
      isS3Request w && negb (HasSuffix (URL_Path r) prometheusMetricsPath) in
    let outside := (respStatusCode w <? 200) || (300 <=? respStatusCode w) in
    let failed := counted && outside && negb (respStatusCode w =? 0) in
    exists h' st' hist',
      updateStats prometheusMetricsPath float64 h st hist api r w durationSecs
        = Ok (h', st', hist') /\
      well_formed h' st' /\
      table h' (APIStats (totalS3Requests st')) =
        (if counted
         then <[api := incr (count_of h (totalS3Requests st) api)]>
                (table h (APIStats (totalS3Requests st)))
         else table h (APIStats (totalS3Requests st))) /\
      table h' (APIStats (totalS3Errors st')) =
        (if failed
         then <[api := incr (count_of h (totalS3Errors st) api)]>
                (table h (APIStats (totalS3Errors st)))
         else table h (APIStats (totalS3Errors st))) /\
      (forall t, min_int <= count_of h t api < max_int ->
                 incr (count_of h t api) = count_of h t api + 1).
Proof.
  intros prom float64 h st hist api r w d (Hreq & Herr & Hapart).
  intros counted outside failed. subst counted outside failed.
  cut (exists h' st' hist',
      updateStats prom float64 h st hist api r w d = Ok (h', st', hist') /\
      well_formed h' st' /\
      table h' (APIStats (totalS3Requests st')) =
        (if isS3Request w && negb (HasSuffix (URL_Path r) prom)
         then <[api := incr (count_of h (totalS3Requests st) api)]>
                (table h (APIStats (totalS3Requests st)))
         else table h (APIStats (totalS3Requests st))) /\
      table h' (APIStats (totalS3Errors st')) =
        (if isS3Request w && negb (HasSuffix (URL_Path r) prom)
            && ((respStatusCode w <? 200) || (300 <=? respStatusCode w))
            && negb (respStatusCode w =? 0)
         then <[api := incr (count_of h (totalS3Errors st) api)]>
                (table h (APIStats (totalS3Errors st)))
         else table h (APIStats (totalS3Errors st)))).
  { intros (h' & st' & hist' & Hrun & Hwf & Hr & He).
    exists h', st', hist'. repeat (split; [done|]).
    intros t Ht. by apply incr_small. }
  unfold updateStats. rewrite outside_2xx.
  set (counted := isS3Request w && negb (HasSuffix (URL_Path r) prom)).
  set (bad := ((respStatusCode w <? 200) || (300 <=? respStatusCode w))
              && negb (respStatusCode w =? 0)).
  replace (counted && ((respStatusCode w <? 200) || (300 <=? respStatusCode w))
           && negb (respStatusCode w =? 0)) with (counted && bad)
    by (unfold bad; by rewrite andb_assoc).
  destruct counted; cbn [andb].
  - change (on_field h (totalS3Requests st) (Inc h (Some (totalS3Requests st)) api))
      with (run_call h (totalS3Requests st) (CallInc api)).
    rewrite run_call_Inc.
    destruct (Inc_step h (totalS3Requests st) (totalS3Errors st) api)
      as (h0 & t & -> & Ht & Herr0 & Hapart0 & Htab & Hkeep); [done..|].
    simpl. destruct bad; simpl.
    + change (on_field h0 (totalS3Errors st) (Inc h0 (Some (totalS3Errors st)) api))
        with (run_call h0 (totalS3Errors st) (CallInc api)).
      rewrite run_call_Inc.
      destruct (Inc_step h0 (totalS3Errors st) t api)
        as (h1 & e & -> & He & Ht1 & Hapart1 & Htab1 & Hkeep1);
        [done|done|by apply apart_sym|].
      simpl.
      destruct (isS3Request w && String.eqb (Method r) "GET");
        (eexists _, _, _; split; [reflexivity|]; simpl;
         split; [split; [done|]; split; [done|]; by apply apart_sym|];
         split; [by rewrite Hkeep1|];
         by rewrite Htab1, Hkeep, (count_of_table h0 _ h _ api Hkeep)).
    + destruct (isS3Request w && String.eqb (Method r) "GET");
        (eexists _, _, _; split; [reflexivity|]; simpl; done).
  - simpl.
    destruct (isS3Request w && String.eqb (Method r) "GET");
      (eexists _, _, _; split; [reflexivity|]; done).
Qed.

Lemma C5_updateStats_counts_witness :
  exists h' st' hist',
    updateStats "/prometheus/metrics" Z [] newHTTPStats [] "GetObject"
      {| URL_Path := "/bucket/key"; Method := "GET" |}
      {| respStatusCode := 500; isS3Request := true |} 5
    = Ok (h', st', hist') /\
    table h' (APIStats (totalS3Requests st')) = <["GetObject" := 1]> ∅ /\
    table h' (APIStats (totalS3Errors st')) = <["GetObject" := 1]> ∅.
Proof.
  assert (well_formed [] newHTTPStats) as Hwf.
  { split; [|split]; intros l Hl; discriminate Hl. }
  destruct (C5_updateStats_counts "/prometheus/metrics" Z [] newHTTPStats []
              "GetObject" {| URL_Path := "/bucket/key"; Method := "GET" |}
              {| respStatusCode := 500; isS3Request := true |} 5 Hwf)
    as (h' & st' & hist' & Hrun & _ & Hreq & Herr & _).
  exists h', st', hist'. split; [exact Hrun|]. split; [exact Hreq | exact Herr].
Defined.

(** The scenarios of the specification, run on the fresh aggregator. *)
Example updateStats_status_200 :
  updateStats "/prometheus/metrics" Z [] newHTTPStats [] "GetObject"
    {| URL_Path := "/bucket/key"; Method := "GET" |}
    {| respStatusCode := 200; isS3Request := true |} 5
  = Ok ([ {["GetObject" := 1]} ],
        {| currentS3Requests := {| APIStats := None |};
           totalS3Requests := {| APIStats := Some 0%nat |};
           totalS3Errors := {| APIStats := None |} |},
        [("GetObject", 5)]).
Proof.
  unfold updateStats. cbn [respStatusCode isS3Request URL_Path Method].
  replace (HasSuffix "/bucket/key" "/prometheus/metrics") with false
    by reflexivity.
  cbn [andb negb Z.geb Z.ltb Z.eqb Z.compare Pos.compare Pos.compare_cont
       totalS3Requests newHTTPStats].
  change (on_field [] {| APIStats := None |}
            (Inc [] (Some {| APIStats := None |}) "GetObject"))
    with (run_call [] {| APIStats := None |} (CallInc "GetObject")).
  rewrite Inc_first. reflexivity.
Qed.

Example updateStats_metrics_path_not_counted :
  updateStats "/prometheus/metrics" Z [] newHTTPStats [] "GetObject"
    {| URL_Path := "/radio/prometheus/metrics"; Method := "GET" |}
    {| respStatusCode := 200; isS3Request := true |} 5
  = Ok ([], newHTTPStats, [("GetObject", 5)]).
Proof. reflexivity. Qed.

End StatsClaims.

(** * Substrings *)

Section StringFacts.
Import Go.

(** A needle without the byte [c] cannot start before a [c] and run
    across it. *)
Lemma prefix_before_byte c needle : forall p r,
  has_byte c needle = false ->
  String.prefix needle (p +:+ String c r) = String.prefix needle p.
Proof.
  induction needle as [|a needle IH]; intros p r Hc.
  - by destruct p.
  - simpl in Hc. apply orb_false_elim in Hc as [Hac Hc].
    apply Ascii.eqb_neq in Hac.
    destruct p as [|b p]; simpl.
    + by destruct (ascii_dec a c).
    + destruct (ascii_dec a b); [by apply IH|done].
Qed.

Lemma Contains_across_byte c needle r : forall p,
  has_byte c needle = false ->
  Contains (p +:+ String c r) needle =
  Contains p needle || Contains (String c r) needle.
Proof.
  intros p Hc. induction p as [|b p IH].
  - destruct needle as [|a needle]; [done|].
    change (Contains "" (String a needle)) with false. done.
  - change (String b p +:+ String c r) with (String b (p +:+ String c r)).
    cbn [Contains]. rewrite IH.
    change (String b (p +:+ String c r)) with (String b p +:+ String c r).
    rewrite prefix_before_byte by done. by rewrite orb_assoc.
Qed.

Lemma substring_whole s : substring 0 (String.length s) s = s.
Proof. induction s as [|a s IH]; simpl; [done|by rewrite IH]. Qed.

Lemma substring_past p : forall s n,
  substring (String.length p) n (p +:+ s) = substring 0 n s.
Proof. induction p as [|a p IH]; intros s n; simpl; [done|apply IH]. Qed.

Lemma length_append p s :
  String.length (p +:+ s) = (String.length p + String.length s)%nat.
Proof. induction p as [|a p IH]; simpl; [done|by rewrite IH]. Qed.

(** Every string ending in [suffix] passes [strings.HasSuffix]. *)
Lemma HasSuffix_append p suffix : HasSuffix (p +:+ suffix) suffix = true.
Proof.
  unfold HasSuffix. rewrite length_append.
  replace (String.length p + String.length suffix - String.length suffix)%nat
    with (String.length p) by lia.
  rewrite substring_past, substring_whole, String.eqb_refl, andb_true_r.
  apply Nat.leb_le. lia.
Qed.

Lemma Contains_unfold s needle :
  Contains s needle =
  String.prefix needle s ||
  match s with
  | EmptyString => false
  | String _ s' => Contains s' needle
  end.
Proof. by destruct s. Qed.

End StringFacts.

(** * The directory listing *)

Section DirFacts.
Import Go Dir.

Variable path_Join : string -> string -> string.
Variable SlashSeparator : string.
Variable fs : FS.
Variable dirPath : string.

Abbreviation visit := (visit path_Join SlashSeparator fs dirPath).
Abbreviation read_loop := (read_loop path_Join SlashSeparator fs dirPath).
Abbreviation readDirN := (readDirN path_Join SlashSeparator fs dirPath).
Abbreviation listed := (listed path_Join SlashSeparator fs dirPath).
Abbreviation complaint := (complaint path_Join fs dirPath).
Abbreviation unresolved := (unresolved path_Join fs dirPath).
Abbreviation resolve := (resolve path_Join fs dirPath).
Abbreviation charged := (charged path_Join fs dirPath).

(** *** One entry *)

Lemma visit_entries count s fi :
  entries (visit count s fi) = entries s ++ listed fi.
Proof.
  unfold Dir.visit, Dir.listed, Dir.resolve, kind_of_mode.
  destruct (isSymlink (Mode fi)).
  - destruct (os_Stat fs _) as [err|st]; simpl; [by rewrite app_nil_r|].
    destruct (IsDir (Mode st)); [done|].
    destruct (IsRegular (Mode st)); [done|by rewrite app_nil_r].
  - simpl. destruct (IsDir (Mode fi)); [done|].
    destruct (IsRegular (Mode fi)); [done|by rewrite app_nil_r].
Qed.

Lemma visit_logged count s fi :
  logged (visit count s fi) = logged s ++ complaint fi.
Proof.
  unfold Dir.visit, Dir.complaint.
  destruct (isSymlink (Mode fi)); simpl; [|by rewrite app_nil_r].
  destruct (os_Stat fs _); simpl; [done|by rewrite app_nil_r].
Qed.

Lemma visit_remaining count s fi :
  remaining (visit count s fi) =
  if (count >? 0) && negb (unresolved fi) then decr (remaining s)
  else remaining s.
Proof.
  unfold Dir.visit, Dir.unresolved.
  destruct (isSymlink (Mode fi)); simpl.
  - destruct (os_Stat fs _); simpl; [by rewrite andb_false_r|].
    by rewrite andb_true_r.
  - by rewrite andb_true_r.
Qed.

Lemma listed_length fi : (length (listed fi) <= 1)%nat.
Proof. unfold Dir.listed. destruct (resolve fi); simpl; lia. Qed.

Lemma listed_unresolved fi : unresolved fi = true -> listed fi = [].
Proof.
  unfold Dir.unresolved, Dir.listed, Dir.resolve.
  destruct (isSymlink (Mode fi)); [|done].
  by destruct (os_Stat fs _).
Qed.

(** *** One batch *)

Lemma fold_visit_entries count fis : forall s,
  entries (fold_left (visit count) fis s) = entries s ++ flat_map listed fis.
Proof.
  induction fis as [|fi fis IH]; intros s; simpl; [by rewrite app_nil_r|].
  by rewrite IH, visit_entries, <-app_assoc.
Qed.

Lemma fold_visit_logged count fis : forall s,
  logged (fold_left (visit count) fis s) = logged s ++ flat_map complaint fis.
Proof.
  induction fis as [|fi fis IH]; intros s; simpl; [by rewrite app_nil_r|].
  by rewrite IH, visit_logged, <-app_assoc.
Qed.

Lemma charged_nil : charged [] = 0.
Proof. reflexivity. Qed.

Lemma charged_cons fi fis :
  charged (fi :: fis) =
  (if unresolved fi then 0 else 1) + charged fis.
Proof.
  unfold Dir.charged. rewrite filter_cons.
  destruct (unresolved fi); simpl; [done|lia].
Qed.

Lemma charged_bounds fis : 0 <= charged fis <= Z.of_nat (length fis).
Proof.
  induction fis as [|fi fis IH]; [rewrite charged_nil; simpl; lia|].
  rewrite charged_cons, length_cons. destruct (unresolved fi); lia.
Qed.

Lemma charged_all fis :
  Forall (fun fi => unresolved fi = false) fis ->
  charged fis = Z.of_nat (length fis).
Proof.
  induction 1 as [|fi fis Hfi _ IH]; [done|].
  rewrite charged_cons, Hfi, IH, length_cons. lia.
Qed.

Lemma flat_map_listed_length fis :
  Z.of_nat (length (flat_map listed fis)) <= charged fis.
Proof.
  induction fis as [|fi fis IH]; [done|].
  simpl. rewrite length_app, charged_cons.
  destruct (unresolved fi) eqn:Hfi.
  - rewrite (listed_unresolved fi Hfi). simpl. lia.
  - pose proof (listed_length fi). lia.
Qed.

(** A bounded listing takes one from the budget for each charged entry,
    as long as the budget covers the batch. *)
Lemma fold_visit_remaining_bounded count fis : forall s,
  0 < count ->
  Z.of_nat (length fis) <= remaining s <= max_int ->
  remaining (fold_left (visit count) fis s) = remaining s - charged fis.
Proof.
  induction fis as [|fi fis IH]; intros s Hc Hr.
  - simpl. rewrite charged_nil. lia.
  - rewrite length_cons, Nat2Z.inj_succ in Hr. simpl.
    assert (remaining (visit count s fi) =
            remaining s - (if unresolved fi then 0 else 1)) as Hstep.
    { rewrite visit_remaining.
      assert ((count >? 0) = true) as -> by lia. simpl.
      destruct (unresolved fi); simpl; [lia|].
      apply decr_small. unfold min_int, bits. lia. }
    rewrite IH, Hstep, charged_cons; [lia|done|].
    rewrite Hstep. destruct (unresolved fi); lia.
Qed.

(** *** One turn of the loop *)

Lemma hits_fault_none d n :
  fault (f_stream d) = None -> hits_fault d n = false.
Proof. unfold hits_fault. by intros ->. Qed.

Lemma hits_fault_enough d n :
  (n <= length (dents (f_stream d)))%nat -> hits_fault d n = false.
Proof.
  unfold hits_fault. intros Hn. destruct (fault (f_stream d)); [|done].
  apply Nat.ltb_ge. lia.
Qed.

Lemma read_loop_end count fuel d n s :
  0 < n -> dents (f_stream d) = [] ->
  read_loop count (S fuel) d n s =
  match end_of d with
  | Some e => returns [] (Some e) s
  | None => returns (entries s) None s
  end.
Proof.
  intros Hn Hd. simpl. unfold Readdir, hits_fault, end_of.
  assert ((n >? 0) = true) as -> by lia. rewrite Hd.
  destruct (fault (f_stream d)); [|done].
  assert ((length (@nil FileInfo) <? Z.to_nat n)%nat = true) as ->
    by (apply Nat.ltb_lt; simpl; lia).
  done.
Qed.

(** A read that runs into the failure of the stream: the batch is
    dropped as it came and the error returned. *)
Lemma read_loop_failed count fuel d n s errno :
  0 < n ->
  fault (f_stream d) = Some errno ->
  (length (dents (f_stream d)) < Z.to_nat n)%nat ->
  read_loop count (S fuel) d n s =
  returns [] (Some (os_error {| Op := "readdirent"; Path := f_name d;
                                Err := errno |})) s.
Proof.
  intros Hn Hfault Hshort. simpl. unfold Readdir, hits_fault, end_of.
  assert ((n >? 0) = true) as -> by lia. rewrite Hfault.
  by assert ((length (dents (f_stream d)) <? Z.to_nat n)%nat = true) as ->
    by (by apply Nat.ltb_lt).
Qed.

Lemma read_loop_batch count fuel d n s :
  0 < n -> dents (f_stream d) <> [] ->
  hits_fault d (Z.to_nat n) = false ->
  read_loop count (S fuel) d n s =
  let fis := take (Z.to_nat n) (dents (f_stream d)) in
  if (count >? 0) && (remaining s <=? Z.of_nat (length fis)) then
    if remaining s <? 0 then Some (Panicked SliceBounds)
    else
      let s' := fold_left (visit count) (take (Z.to_nat (remaining s)) fis) s in
      returns (entries s') None s'
  else read_loop count fuel (advance d (Z.to_nat n)) n
                 (fold_left (visit count) fis s).
Proof.
  intros Hn Hd Hok. simpl. unfold Readdir. rewrite Hok.
  assert ((n >? 0) = true) as -> by lia.
  destruct (dents (f_stream d)) as [|fi fis] eqn:Hfis; [done|].
  cbv zeta.
  destruct ((count >? 0) && _); [|reflexivity].
  unfold slice_to. destruct (remaining s <? 0); reflexivity.
Qed.

(** Either the next read fails, or it hands out a batch. *)
Lemma next_read d n :
  (exists errno, fault (f_stream d) = Some errno /\
                 (length (dents (f_stream d)) < n)%nat) \/
  hits_fault d n = false.
Proof.
  unfold hits_fault. destruct (fault (f_stream d)) as [errno|]; [|by right].
  destruct (Nat.ltb_spec (length (dents (f_stream d))) n); [|by right].
  left. by exists errno.
Qed.

(** Whatever the loop returns, it has visited the first entries of what
    was left to read, up to some point, and no other: the log holds the
    lines of these entries, and a return without an error their
    listing. *)
Lemma read_loop_visited count n fuel : forall d s o,
  0 < n ->
  read_loop count fuel d n s = Some (Ok o) ->
  exists k,
    out_log o = logged s ++ flat_map complaint (take k (dents (f_stream d))) /\
    (out_err o = None ->
     out_entries o
     = entries s ++ flat_map listed (take k (dents (f_stream d)))).
Proof.
  induction fuel as [|fuel IH]; intros d s o Hn Hrun; [done|].
  destruct (decide (dents (f_stream d) = [])) as [Hd|Hd].
  - rewrite read_loop_end in Hrun by done. unfold end_of, returns in Hrun.
    exists 0%nat. simpl. rewrite !app_nil_r.
    by destruct (fault (f_stream d)); injection Hrun as <-.
  - destruct (next_read d (Z.to_nat n)) as [(errno & Hfault & Hshort)|Hok].
    { rewrite (read_loop_failed count fuel d n s errno) in Hrun by done.
      unfold returns in Hrun. injection Hrun as <-.
      exists 0%nat. simpl. by rewrite !app_nil_r. }
    rewrite read_loop_batch in Hrun by done. cbv zeta in Hrun.
    destruct ((count >? 0) && _).
    + destruct (remaining s <? 0); [done|].
      unfold returns in Hrun. injection Hrun as <-.
      exists (Z.to_nat (remaining s) `min` Z.to_nat n)%nat.
      cbn [out_entries out_log].
      by rewrite fold_visit_entries, fold_visit_logged, take_take.
    + apply IH in Hrun as (k & Hlg & Hes); [|done].
      exists (Z.to_nat n + k)%nat.
      rewrite Hlg, fold_visit_logged. cbn [advance f_stream dents].
      split.
      * by rewrite <-!app_assoc, <-!flat_map_app, take_take_drop.
      * intros Herr. rewrite Hes, fold_visit_entries by done.
        cbn [advance f_stream dents].
        by rewrite <-!app_assoc, <-!flat_map_app, take_take_drop.
Qed.

Lemma take_batch_length (fis : list FileInfo) n :
  0 < n -> fis <> [] ->
  (0 < length (take (Z.to_nat n) fis) <= length fis)%nat /\
  (length (drop (Z.to_nat n) fis) < length fis)%nat.
Proof.
  intros Hn Hfis. rewrite length_take, length_drop.
  destruct fis as [|fi fis]; [done|]. rewrite length_cons. lia.
Qed.

(** *** The whole loop, unbounded *)

Lemma read_loop_unbounded count n fuel : forall d s,
  0 < n -> count <= 0 ->
  fault (f_stream d) = None ->
  (length (dents (f_stream d)) < fuel)%nat ->
  read_loop count fuel d n s =
  Some (Ok {| out_entries := entries s ++ flat_map listed (dents (f_stream d));
              out_err := None;
              out_log := logged s ++ flat_map complaint (dents (f_stream d)) |}).
Proof.
  induction fuel as [|fuel IH]; intros d s Hn Hc Hfault Hfuel; [lia|].
  destruct (decide (dents (f_stream d) = [])) as [Hd|Hd].
  - rewrite read_loop_end by done. unfold end_of. rewrite Hfault, Hd.
    unfold returns. simpl. by rewrite !app_nil_r.
  - rewrite read_loop_batch by (done || by apply hits_fault_none).
    cbv zeta. assert ((count >? 0) = false) as -> by lia. simpl andb. cbv iota.
    destruct (take_batch_length (dents (f_stream d)) n) as [Htake Hdrop];
      [done..|].
    rewrite IH; [|done|done|done|simpl; lia].
    rewrite fold_visit_entries, fold_visit_logged. simpl.
    by rewrite <-!app_assoc, <-!flat_map_app, take_drop.
Qed.

(** *** The whole loop, bounded or not *)

(** The loop ends, without a panic; a bounded listing stays within its
    bound; and the only error it can return is the one the directory
    stream fails with. *)
Lemma read_loop_returns count n fuel : forall d s,
  0 < n -> count <= max_int ->
  within_budget count s ->
  (length (dents (f_stream d)) < fuel)%nat ->
  exists o,
    read_loop count fuel d n s = Some (Ok o) /\
    (0 < count -> Z.of_nat (length (out_entries o)) <= count) /\
    match out_err o with
    | None => True
    | Some e =>
      exists errno,
        fault (f_stream d) = Some errno /\
        e = os_error {| Op := "readdirent"; Path := f_name d; Err := errno |} /\
        out_entries o = []
    end.
Proof.
  induction fuel as [|fuel IH]; intros d s Hn Hmax Hinv Hfuel; [lia|].
  destruct (decide (dents (f_stream d) = [])) as [Hd|Hd].
  - rewrite read_loop_end by done. unfold end_of, returns.
    destruct (fault (f_stream d)) as [errno|] eqn:Hfault.
    + eexists. split; [reflexivity|]. simpl. split; [lia|]. by exists errno.
    + eexists. split; [reflexivity|]. simpl. split; [|done].
      intros Hc. destruct (Hinv Hc). lia.
  - destruct (next_read d (Z.to_nat n)) as [(errno & Hfault & Hshort)|Hok].
    { rewrite (read_loop_failed count fuel d n s errno) by done.
      unfold returns. eexists. split; [reflexivity|]. simpl. split; [lia|].
      by exists errno. }
    rewrite read_loop_batch by done. cbv zeta.
    destruct (take_batch_length (dents (f_stream d)) n) as [Htake Hdrop];
      [done..|].
    set (fis := take (Z.to_nat n) (dents (f_stream d))) in *.
    destruct (Z.ltb_spec 0 count) as [Hc|Hc].
    + destruct (Hinv Hc) as [Hr Hlen].
      assert ((count >? 0) = true) as -> by lia. simpl andb.
      destruct (Z.leb_spec (remaining s) (Z.of_nat (length fis))) as [Hcut|Hcut].
      * assert ((remaining s <? 0) = false) as -> by lia.
        unfold returns. eexists. split; [reflexivity|]. simpl. split; [|done].
        intros _. rewrite fold_visit_entries, length_app.
        pose proof (flat_map_listed_length
                      (take (Z.to_nat (remaining s)) fis)) as Hl.
        pose proof (charged_bounds (take (Z.to_nat (remaining s)) fis)) as Hb.
        rewrite length_take in Hb. lia.
      * destruct (IH (advance d (Z.to_nat n)) (fold_left (visit count) fis s))
          as (o & Hrun & Hbound & Herr); [done|done| |simpl; lia|].
        { intros _.
          rewrite fold_visit_remaining_bounded, fold_visit_entries, length_app
            by lia.
          pose proof (flat_map_listed_length fis).
          pose proof (charged_bounds fis). lia. }
        exists o. split; [done|]. split; [done|]. exact Herr.
    + assert ((count >? 0) = false) as -> by lia. simpl andb. cbv iota.
      destruct (IH (advance d (Z.to_nat n)) (fold_left (visit count) fis s))
        as (o & Hrun & Hbound & Herr); [done|done| |simpl; lia|].
      { intros ?. lia. }
      exists o. split; [done|]. split; [done|]. exact Herr.
Qed.

(** A bounded listing of a directory that reads without failure and has
    no link that does not resolve reports the first [remaining] entries,
    those among them that are of no listed kind being left out and not
    made up for. *)
Lemma read_loop_truncates count n fuel : forall d s,
  0 < n -> 0 < count ->
  0 < remaining s <= max_int ->
  fault (f_stream d) = None ->
  Forall (fun fi => unresolved fi = false) (dents (f_stream d)) ->
  (length (dents (f_stream d)) < fuel)%nat ->
  read_loop count fuel d n s =
  Some (Ok {| out_entries :=
                entries s ++
                flat_map listed
                  (take (Z.to_nat (remaining s)) (dents (f_stream d)));
              out_err := None;
              out_log :=
                logged s ++
                flat_map complaint
                  (take (Z.to_nat (remaining s)) (dents (f_stream d))) |}).
Proof.
  induction fuel as [|fuel IH]; intros d s Hn Hc Hr Hfault Hall Hfuel; [lia|].
  destruct (decide (dents (f_stream d) = [])) as [Hd|Hd].
  - rewrite read_loop_end by done. unfold end_of. rewrite Hfault, Hd.
    unfold returns. rewrite take_nil. simpl. by rewrite !app_nil_r.
  - rewrite read_loop_batch by (done || by apply hits_fault_none). cbv zeta.
    destruct (take_batch_length (dents (f_stream d)) n) as [Htake Hdrop];
      [done..|].
    set (l := dents (f_stream d)) in *.
    assert ((count >? 0) = true) as -> by lia. simpl andb.
    destruct (Z.leb_spec (remaining s) (Z.of_nat (length (take (Z.to_nat n) l))))
      as [Hcut|Hcut].
    + assert ((remaining s <? 0) = false) as -> by lia.
      unfold returns. rewrite fold_visit_entries, fold_visit_logged.
      rewrite take_take.
      rewrite length_take in Hcut.
      by replace (Z.to_nat (remaining s) `min` Z.to_nat n)%nat
        with (Z.to_nat (remaining s)) by lia.
    + assert (Forall (fun fi => unresolved fi = false) (take (Z.to_nat n) l))
        as Hall1 by (by apply Forall_take).
      assert (Forall (fun fi => unresolved fi = false) (drop (Z.to_nat n) l))
        as Hall2 by (by apply Forall_drop).
      assert (remaining (fold_left (visit count) (take (Z.to_nat n) l) s)
              = remaining s - Z.of_nat (length (take (Z.to_nat n) l))) as Hrem.
      { rewrite fold_visit_remaining_bounded by lia.
        by rewrite charged_all. }
      rewrite IH; [|done|done|lia|done|done|simpl; fold l; lia].
      rewrite fold_visit_entries, fold_visit_logged, Hrem.
      cbn [f_stream advance dents]. fold l.
      rewrite <-!app_assoc, <-!flat_map_app.
      assert (take (Z.to_nat n) l ++
              take (Z.to_nat (remaining s -
                              Z.of_nat (length (take (Z.to_nat n) l))))
                   (drop (Z.to_nat n) l)
              = take (Z.to_nat (remaining s)) l) as ->; [|done].
      rewrite length_take in *.
      destruct (decide (length l <= Z.to_nat n)%nat) as [Hshort|Hlong].
      * rewrite (drop_ge l) by done. rewrite take_nil, app_nil_r.
        rewrite !take_ge by lia. done.
      * rewrite take_take_drop. f_equal. lia.
Qed.

(** *** The call *)

Lemma maxEntries_pos count : 0 < maxEntries_of count.
Proof.
  unfold maxEntries_of.
  destruct (Z.gtb_spec count 0), (Z.ltb_spec count 1000); simpl; lia.
Qed.

Lemma readDirN_opened count ds :
  fs_open fs dirPath = inr ds ->
  readDirN count =
  read_loop count (S (length (dents ds)))
    {| f_name := dirPath; f_stream := ds |} (maxEntries_of count)
    {| entries := []; remaining := count; logged := [] |}.
Proof. intros Hopen. unfold Dir.readDirN, os_Open. by rewrite Hopen. Qed.

Lemma readDirN_refused count errno :
  fs_open fs dirPath = inl errno ->
  let err := {| Op := "open"; Path := dirPath; Err := errno |} in
  readDirN count =
  Some (Ok {| out_entries := [];
              out_err :=
                Some (if os_IsNotExist err
                         || Contains (PathError_Error err) "not a directory"
                      then errFileNotFound else os_error err);
              out_log := [] |}).
Proof.
  intros Hopen err. unfold Dir.readDirN, os_Open. rewrite Hopen. fold err.
  destruct (os_IsNotExist err); [reflexivity|]. cbn [orb].
  destruct (Contains (PathError_Error err) "not a directory"); reflexivity.
Qed.

(** The listing returns; a bounded one returns at most [count] names. *)
Lemma readDirN_returns count :
  count <= max_int ->
  exists o,
    readDirN count = Some (Ok o) /\
    (0 < count -> Z.of_nat (length (out_entries o)) <= count).
Proof.
  intros Hmax. destruct (fs_open fs dirPath) as [errno|ds] eqn:Hopen.
  - rewrite (readDirN_refused count errno Hopen).
    eexists. split; [reflexivity|]. simpl. lia.
  - rewrite (readDirN_opened count ds Hopen).
    destruct (read_loop_returns count (maxEntries_of count)
                (S (length (dents ds)))
                {| f_name := dirPath; f_stream := ds |}
                {| entries := []; remaining := count; logged := [] |})
      as (o & Hrun & Hbound & _);
      [apply maxEntries_pos|done|intros ?; simpl; lia|simpl; lia|].
    by exists o.
Qed.

(** A count that is not positive lists as [-1] does: the budget is never
    read, and the report depends on the names and log lines alone. *)
Lemma read_loop_nonpositive count n fuel : forall d s s',
  count <= 0 ->
  entries s = entries s' -> logged s = logged s' ->
  read_loop count fuel d n s = read_loop (-1) fuel d n s'.
Proof.
  induction fuel as [|fuel IH]; intros d s s' Hc Hes Hlg; [done|].
  simpl. destruct (Readdir d n) as [[d' fis] [e|]].
  - unfold returns. rewrite Hes, Hlg. done.
  - assert ((count >? 0) = false) as -> by lia. simpl.
    apply IH; [done|..].
    + by rewrite !fold_visit_entries, Hes.
    + by rewrite !fold_visit_logged, Hlg.
Qed.

Lemma readDirN_nonpositive count :
  count <= 0 -> readDirN count = readDirN (-1).
Proof.
  intros Hc. destruct (fs_open fs dirPath) as [errno|ds] eqn:Hopen.
  - by rewrite !(readDirN_refused _ errno Hopen).
  - rewrite !(readDirN_opened _ ds Hopen).
    replace (maxEntries_of count) with (maxEntries_of (-1)).
    + by apply read_loop_nonpositive.
    + unfold maxEntries_of. by assert ((count >? 0) = false) as -> by lia.
Qed.

(** The text of a failed [os.Open] holds the words [not a directory]
    when the system error is [ENOTDIR], or when the path itself does. *)
Lemma open_error_text errno :
  Contains (PathError_Error {| Op := "open"; Path := dirPath; Err := errno |})
           "not a directory"
  = Contains dirPath "not a directory" ||
    match errno with ENOTDIR => true | _ => false end.
Proof.
  unfold PathError_Error. cbn [Op Path Err].
  change ("open" +:+ " " +:+ dirPath +:+ ": " +:+ Errno_Error errno)
    with (String "o" (String "p" (String "e" (String "n" (String " "
            (dirPath +:+ String ":" (" " +:+ Errno_Error errno))))))).
  do 5 (rewrite (Contains_unfold (String _ _)); cbn [String.prefix ascii_dec
    ascii_rec ascii_rect sumbool_rec sumbool_rect Bool.bool_dec bool_rec
    bool_rect eq_rec_r eq_rec eq_rect eq_sym orb]).
  rewrite Contains_across_byte by reflexivity. f_equal.
  by destruct errno.
Qed.

End DirFacts.

(** * Claims about the directory listing *)

Section DirClaims.
Import Go Dir Sample.

Lemma complaint_resolved path_Join fs dirPath fi :
  unresolved path_Join fs dirPath fi = false ->
  complaint path_Join fs dirPath fi = [].
Proof.
  unfold unresolved, complaint.
  destruct (isSymlink (Mode fi)); [|done].
  by destruct (os_Stat fs _).
Qed.

Lemma flat_map_complaint_resolved path_Join fs dirPath fis :
  Forall (fun fi => unresolved path_Join fs dirPath fi = false) fis ->
  flat_map (complaint path_Join fs dirPath) fis = [].
Proof.
  induction 1 as [|fi fis Hfi _ IH]; [done|].
  simpl. by rewrite complaint_resolved, IH.
Qed.

(** X17: a listing with a positive bound returns at most that many
    names, and it does return, without a panic. *)
Lemma readDirN_bounded path_Join SlashSeparator fs dirPath count :
  0 < count <= max_int ->
  exists o,
    readDirN path_Join SlashSeparator fs dirPath count = Some (Ok o) /\
    Z.of_nat (length (out_entries o)) <= count.
Proof.
  intros [Hpos Hmax].
  destruct (readDirN_returns path_Join SlashSeparator fs dirPath count Hmax)
    as (o & Hrun & Hbound).
  exists o. split; [done|]. by apply Hbound.
Qed.

(** C1: with the bound [0] the listing is not empty: every entry of the
    directory is returned, as for [-1].  Here the directory holds one
    regular file, and the call returns its name. *)
Theorem C1_zero_bound_lists_everything :
  readDirN join "/" one_file "d" 0
  = Some (Ok {| out_entries := ["a"]; out_err := None; out_log := [] |})
  /\ readDirN join "/" one_file "d" 0 = readDirN join "/" one_file "d" (-1).
Proof. split; [vm_compute; reflexivity|]. by apply readDirN_nonpositive. Qed.




(** C6: the unbounded listing of a directory that reads to its end
    returns, in the order read, one name for each entry that after the one
    follow-stat of a link is a directory (the name with the separator) or
    a regular file (the bare name), and nothing for any other entry; so
    it returns N+M names for N regular files and M directories.  Each link
    that does not resolve is logged with its path, and the error is nil. *)
Theorem C6_unbounded_listing :
  forall path_Join SlashSeparator fs dirPath ds,
    fs_open fs dirPath = inr ds ->
    fault ds = None ->
    readDirN path_Join SlashSeparator fs dirPath (-1)
    = Some (Ok {| out_entries :=
                    flat_map (listed path_Join SlashSeparator fs dirPath)
                             (dents ds);
                  out_err := None;
                  out_log :=
                    flat_map (complaint path_Join fs dirPath) (dents ds) |})
    /\ length (flat_map (listed path_Join SlashSeparator fs dirPath) (dents ds))
       = (count_kind path_Join fs dirPath RegularFile (dents ds)
          + count_kind path_Join fs dirPath Directory (dents ds))%nat.
Proof.
  intros path_Join SlashSeparator fs dirPath ds Hopen Hfault. split.
  - rewrite (readDirN_opened path_Join SlashSeparator fs dirPath (-1) ds Hopen).
    rewrite read_loop_unbounded; [done|apply maxEntries_pos|lia|done|simpl; lia].
  - unfold count_kind. induction (dents ds) as [|fi fis IH]; [done|].
    simpl. rewrite length_app, IH, !filter_cons. unfold listed.
    destruct (resolve path_Join fs dirPath fi); simpl; lia.
Qed.

Lemma C6_unbounded_listing_witness :
  readDirN join "/" mixed "d" (-1)
  = Some (Ok {| out_entries := ["a"; "sub/"; "ld/"];
                out_err := None;
                out_log := [("d/gone", {| Op := "stat"; Path := "d/gone";
                                          Err := ENOENT |})] |}).
Proof.
  exact (proj1 (C6_unbounded_listing join "/" mixed "d"
                  {| dents := [link "gone"; file "a"; subdir "sub";
                               device "null"; link "ld"];
                     fault := None |} eq_refl eq_refl)).
Defined.

(** X16: what a failed open turns into: [errFileNotFound] for [ENOENT]
    and for [ENOTDIR], and also for any other failure on a path that
    itself holds the words [not a directory]; the open's own error
    otherwise. *)
Lemma readDirN_open_failure path_Join SlashSeparator fs dirPath count errno :
  fs_open fs dirPath = inl errno ->
  readDirN path_Join SlashSeparator fs dirPath count
  = Some (Ok {| out_entries := [];
                out_err :=
                  Some (if match errno with
                           | ENOENT | ENOTDIR => true
                           | _ => false
                           end
                           || Contains dirPath "not a directory"
                        then errFileNotFound
                        else os_error {| Op := "open"; Path := dirPath;
                                         Err := errno |});
                out_log := [] |}).
Proof.
  intros Hopen.
  rewrite (readDirN_refused path_Join SlashSeparator fs dirPath count errno Hopen).
  cbv zeta. rewrite open_error_text. unfold os_IsNotExist. cbn [Err].
  do 3 f_equal.
  by destruct errno, (Contains dirPath "not a directory").
Qed.

(** C7: a directory whose path holds the words [not a directory] and
    that the caller may not open ([EACCES]) is reported as
    [errFileNotFound], not with the open's own error. *)
Theorem C7_denied_path_reported_not_found :
  fs_open denied "not a directory/x" = inl EACCES /\
  readDirN join "/" denied "not a directory/x" (-1)
  = Some (Ok {| out_entries := [];
                out_err := Some errFileNotFound;
                out_log := [] |}).
Proof. split; vm_compute; reflexivity. Qed.

(** C10: in a bounded listing a link that does not resolve is logged and
    passed over with the budget as it was, while an entry that is no link
    and neither a directory nor a regular file adds no name and takes one
    from the budget.  Hence entries left out for their kind are never made
    up for: without unresolved links the listing reports the first [count]
    entries and no more.  An unresolved link can be made up for: among
    1002 entries, a dangling link first and 1001 files behind it, the bound
    1001 yields all the 1001 files, and with a device in the link's place
    only the first 1000 of them. *)
Theorem C10_budget_charging :
  (forall path_Join SlashSeparator fs dirPath count s fi err,
      0 < count ->
      isSymlink (Mode fi) = true ->
      os_Stat fs (path_Join dirPath (Name fi)) = inl err ->
      visit path_Join SlashSeparator fs dirPath count s fi
      = {| entries := entries s;
           remaining := remaining s;
           logged := logged s ++ [(path_Join dirPath (Name fi), err)] |}) /\
  (forall path_Join SlashSeparator fs dirPath count s fi,
      0 < count ->
      min_int < remaining s <= max_int ->
      isSymlink (Mode fi) = false ->
      IsDir (Mode fi) = false ->
      IsRegular (Mode fi) = false ->
      visit path_Join SlashSeparator fs dirPath count s fi
      = {| entries := entries s;
           remaining := remaining s - 1;
           logged := logged s |}) /\
  (forall path_Join SlashSeparator fs dirPath count ds,
      0 < count <= max_int ->
      fs_open fs dirPath = inr ds ->
      fault ds = None ->
      Forall (fun fi => unresolved path_Join fs dirPath fi = false) (dents ds) ->
      readDirN path_Join SlashSeparator fs dirPath count
      = Some (Ok {| out_entries :=
                      flat_map (listed path_Join SlashSeparator fs dirPath)
                               (take (Z.to_nat count) (dents ds));
                    out_err := None;
                    out_log := [] |})) /\
  readDirN join "/" (crowded (link "gone")) "d" 1001
  = Some (Ok {| out_entries := map Name (numbered 1001);
                out_err := None;
                out_log := [("d/gone", {| Op := "stat"; Path := "d/gone";
                                          Err := ENOENT |})] |}) /\
  readDirN join "/" (crowded (device "null")) "d" 1001
  = Some (Ok {| out_entries := map Name (numbered 1000);
                out_err := None;
                out_log := [] |}).
Proof.
  split; [|split; [|split; [|split]]].
  - intros path_Join SlashSeparator fs dirPath count s fi err Hc Hlink Hstat.
    unfold visit. by rewrite Hlink, Hstat.
  - intros path_Join SlashSeparator fs dirPath count s fi Hc Hr Hlink Hdir Hreg.
    unfold visit. rewrite Hlink, Hdir, Hreg.
    assert ((count >? 0) = true) as -> by lia.
    by rewrite decr_small.
  - intros path_Join SlashSeparator fs dirPath count ds [Hpos Hmax]
           Hopen Hfault Hall.
    rewrite (readDirN_opened path_Join SlashSeparator fs dirPath count ds Hopen).
    rewrite read_loop_truncates;
      [|apply maxEntries_pos|done|simpl; lia|done|done|simpl; lia].
    cbn [entries remaining logged f_stream app].
    rewrite flat_map_complaint_resolved; [done|].
    by apply Forall_take.
  - vm_compute. reflexivity.
  - vm_compute. reflexivity.
Qed.

Lemma C10_budget_charging_witness :
  visit join "/" mixed "d" 2
        {| entries := []; remaining := 2; logged := [] |} (link "gone")
  = {| entries := []; remaining := 2;
       logged := [("d/gone", {| Op := "stat"; Path := "d/gone";
                                Err := ENOENT |})] |} /\
  visit join "/" mixed "d" 2
        {| entries := []; remaining := 2; logged := [] |} (device "null")
  = {| entries := []; remaining := 1; logged := [] |} /\
  readDirN join "/" one_file "d" 1
  = Some (Ok {| out_entries := ["a"]; out_err := None; out_log := [] |}).
Proof.
  destruct C10_budget_charging as (Hlink & Hdevice & Hcut & _).
  split; [|split].
  - apply (Hlink join "/" mixed "d" 2
             {| entries := []; remaining := 2; logged := [] |} (link "gone")
             {| Op := "stat"; Path := "d/gone"; Err := ENOENT |});
      [lia|reflexivity|reflexivity].
  - apply (Hdevice join "/" mixed "d" 2
             {| entries := []; remaining := 2; logged := [] |} (device "null"));
      [lia|vm_compute; split; [reflexivity|discriminate]
      |reflexivity|reflexivity|reflexivity].
  - apply (Hcut join "/" one_file "d" 1
             {| dents := [file "a"]; fault := None |});
      [vm_compute; split; [reflexivity|discriminate]
      |reflexivity|reflexivity|].
    repeat constructor.
Defined.

End DirClaims.

(** * More about the byte counters *)

Section ConnExtras.
Import Go Stats.

Lemma get_inc_same c s n :
  get c (inc c s n) = (get c s + n) mod 2 ^ 64.
Proof.
  destruct c; simpl;
    unfold getTotalInputBytes, getTotalOutputBytes, getS3InputBytes,
      getS3OutputBytes, atomic_Add, to_uint64, wrap_u64; simpl;
    by rewrite Zplus_mod_idemp_r.
Qed.

Lemma get_inc_other c c' s n : c <> c' -> get c' (inc c s n) = get c' s.
Proof. by destruct c, c'. Qed.

Lemma run_incs_get c ops : forall s,
  0 <= get c s < 2 ^ 64 ->
  get c (run_incs s ops) = (get c s + added c ops) mod 2 ^ 64.
Proof.
  induction ops as [|[c' n] ops IH]; intros s Hs.
  - unfold run_incs. cbn [fold_left added]. rewrite Z.add_0_r.
    symmetry. by apply Z.mod_small.
  - change (run_incs s ((c', n) :: ops)) with (run_incs (inc c' s n) ops).
    cbn [added]. case_decide as Hc.
    + subst c'. rewrite IH, get_inc_same.
      * rewrite Zplus_mod_idemp_l. f_equal; lia.
      * rewrite get_inc_same. apply Z.mod_pos_bound. lia.
    + rewrite IH.
      * rewrite get_inc_other by done. f_equal; lia.
      * by rewrite get_inc_other.
Qed.

(** X1: after any run of increments, [toServerConnStats] reports for each
    counter its starting value plus the sum of the amounts added to it,
    modulo [2^64], and a throughput of zero; an amount added to one
    counter never shows in another. *)
Theorem conn_report_is_sum_per_counter :
  forall s ops,
    uint64_state s ->
    toServerConnStats (run_incs s ops)
    = {| TotalInputBytes := (get TotalInput s + added TotalInput ops) mod 2 ^ 64;
         TotalOutputBytes := (get TotalOutput s + added TotalOutput ops) mod 2 ^ 64;
         Throughput := 0;
         S3InputBytes := (get S3Input s + added S3Input ops) mod 2 ^ 64;
         S3OutputBytes := (get S3Output s + added S3Output ops) mod 2 ^ 64 |}.
Proof.
  intros s ops Hs. unfold toServerConnStats.
  change (getTotalInputBytes (run_incs s ops)) with (get TotalInput (run_incs s ops)).
  change (getTotalOutputBytes (run_incs s ops)) with (get TotalOutput (run_incs s ops)).
  change (getS3InputBytes (run_incs s ops)) with (get S3Input (run_incs s ops)).
  change (getS3OutputBytes (run_incs s ops)) with (get S3Output (run_incs s ops)).
  by rewrite !run_incs_get.
Qed.

Lemma conn_report_is_sum_per_counter_witness :
  toServerConnStats
    (run_incs newConnStats [(TotalInput, 4096); (S3Output, 7); (TotalInput, 1)])
  = {| TotalInputBytes := 4097; TotalOutputBytes := 0; Throughput := 0;
       S3InputBytes := 0; S3OutputBytes := 7 |}.
Proof.
  apply (conn_report_is_sum_per_counter newConnStats
           [(TotalInput, 4096); (S3Output, 7); (TotalInput, 1)]).
  intros c. destruct c; cbn; lia.
Defined.

Lemma inc_swap c1 n1 c2 n2 s :
  inc c2 (inc c1 s n1) n2 = inc c1 (inc c2 s n2) n1.
Proof.
  destruct c1, c2; try reflexivity;
    unfold inc, incInputBytes, incOutputBytes, incS3InputBytes,
      incS3OutputBytes, atomic_Add, to_uint64, wrap_u64; simpl; f_equal;
    rewrite !Zplus_mod_idemp_r, !Zplus_mod_idemp_l; f_equal; lia.
Qed.

(** X2: the order of the increments does not matter: two runs that hold
    the same increments, in any order, leave the same counters. *)
Theorem conn_increments_commute :
  forall ops ops' s,
    Permutation ops ops' -> run_incs s ops = run_incs s ops'.
Proof.
  intros ops ops' s Hperm. revert s.
  induction Hperm as [|op ops ops' _ IH|op1 op2 ops|ops1 ops2 ops3 _ IH1 _ IH2];
    intros s.
  - done.
  - apply IH.
  - unfold run_incs. simpl. by rewrite inc_swap.
  - by rewrite IH1.
Qed.

Lemma conn_increments_commute_witness :
  run_incs newConnStats [(TotalInput, 5); (S3Input, 2); (TotalInput, 9)]
  = run_incs newConnStats [(TotalInput, 9); (TotalInput, 5); (S3Input, 2)].
Proof.
  apply conn_increments_commute.
  apply perm_trans with [(TotalInput, 5); (TotalInput, 9); (S3Input, 2)].
  - apply perm_skip, perm_swap.
  - apply perm_swap.
Defined.

(** X3: a negative amount is not refused: [uint64(n)] wraps it, and the
    counter goes down.  Adding [n] and then [-n] leaves a counter as it
    was, and adding [-n] to a counter that holds at least [n] takes [n]
    off it. *)
Theorem conn_negative_amount_lowers_counter :
  forall c s n,
    0 <= get c s < 2 ^ 64 ->
    get c (inc c (inc c s n) (- n)) = get c s /\
    (0 <= n <= get c s -> get c (inc c s (- n)) = get c s - n).
Proof.
  intros c s n Hs. split.
  - rewrite !get_inc_same, Zplus_mod_idemp_l.
    replace (get c s + n + - n) with (get c s) by lia. by apply Z.mod_small.
  - intros Hn. rewrite get_inc_same. apply Z.mod_small. lia.
Qed.

Lemma conn_negative_amount_lowers_counter_witness :
  get TotalInput (inc TotalInput (inc TotalInput newConnStats 10) (- 4)) = 6.
Proof.
  apply (proj2 (conn_negative_amount_lowers_counter TotalInput
                  (inc TotalInput newConnStats 10) 4
                  ltac:(vm_compute; split; [discriminate|reflexivity]))).
  vm_compute. split; discriminate.
Defined.

End ConnExtras.

(** * More about the counter tables *)

Section TableExtras.
Import Go Stats.

#[local] Arguments table : simpl never.

Lemma count_of_default h s k :
  count_of h s k = default 0 (table h (APIStats s) !! k).
Proof. unfold count_of, map_get. by destruct (table h (APIStats s) !! k). Qed.

(** The first [Inc] on a struct whose map is nil: one map is made, at the
    end of the store, holding the name with count 1. *)
Lemma Inc_locked_fresh h api :
  Inc_locked h {| APIStats := None |} api
  = Ok (h ++ [ {[api := 1]} ], {| APIStats := Some (length h) |}).
Proof.
  unfold Inc_locked, map_get. simpl.
  rewrite (table_made h ∅), lookup_empty. simpl. rewrite insert_empty.
  replace (length h) with (length h + 0)%nat at 1 by lia.
  by rewrite insert_app_r.
Qed.

Lemma Inc_locked_count h s api k :
  allocated h s ->
  exists h' s',
    Inc_locked h s api = Ok (h', s') /\ allocated h' s' /\
    count_of h' s' k =
      (if decide (k = api) then incr (count_of h s api) else count_of h s k) /\
    (forall j, is_Some (table h (APIStats s) !! j) ->
               is_Some (table h' (APIStats s') !! j)) /\
    is_Some (table h' (APIStats s') !! api).
Proof.
  intros Hal.
  destruct (Inc_locked_spec h s api) as (h' & s' & Hrun & _ & _ & _ & Hspec & _).
  destruct (Hspec Hal) as [Hal' Htab].
  exists h', s'. split; [done|]. split; [done|].
  rewrite <-count_of_lookup in Htab. split; [|split].
  - rewrite (count_of_default h' s'), Htab. case_decide as Hk.
    + subst k. by rewrite lookup_insert_eq.
    + rewrite lookup_insert_ne by done. by rewrite <-count_of_default.
  - intros j Hj. rewrite Htab. apply lookup_insert_is_Some.
    destruct (decide (api = j)); [by left|by right].
  - rewrite Htab, lookup_insert_eq. by eexists.
Qed.

Lemma Dec_locked_count h s api k :
  exists h',
    Dec_locked h s api = Ok (h', s) /\ length h' = length h /\
    count_of h' s k =
      (if decide (k = api)
       then (if 0 <? count_of h s api then decr (count_of h s api)
             else count_of h s api)
       else count_of h s k) /\
    (forall j, is_Some (table h (APIStats s) !! j) ->
               is_Some (table h' (APIStats s) !! j)).
Proof.
  destruct (Dec_locked_spec h s api) as (h' & Hrun & Hlen & Hcase).
  exists h'. split; [done|]. split; [done|].
  rewrite !(count_of_default h s), (count_of_default h' s).
  destruct (table h (APIStats s) !! api) as [v|] eqn:Hv; simpl.
  - case_decide as Hpos.
    + destruct Hcase as [Htab _]. rewrite Htab.
      assert ((0 <? v) = true) as -> by lia. split.
      * case_decide as Hk; [subst k; by rewrite lookup_insert_eq|].
        by rewrite lookup_insert_ne.
      * intros j Hj. apply lookup_insert_is_Some.
        destruct (decide (api = j)); [by left|by right].
    + subst h'. assert ((0 <? v) = false) as -> by lia.
      split; [|done]. case_decide as Hk; [subst k; by rewrite Hv|done].
  - subst h'. split; [|done]. simpl.
    case_decide as Hk; [subst k; by rewrite Hv|done].
Qed.

Lemma net_count_bounds api cs : forall v,
  0 <= v -> 0 <= net_count api cs v <= v + Z.of_nat (length cs).
Proof.
  induction cs as [|[a|a] cs IH]; intros v Hv.
  - simpl. lia.
  - rewrite length_cons, Nat2Z.inj_succ. cbn [net_count].
    case_decide; [specialize (IH (v + 1))|specialize (IH v)]; lia.
  - rewrite length_cons, Nat2Z.inj_succ. cbn [net_count].
    case_decide; [|specialize (IH v); lia].
    destruct (Z.ltb_spec 0 v); [specialize (IH (v - 1))|specialize (IH v)]; lia.
Qed.

(** X4: a table counts as a saturating counter per name.  After any run
    of [Inc] and [Dec] calls that stays below the largest [int], the count
    of a name is what one gets by adding one for each [Inc] of that name
    and taking one off, never below zero, for each [Dec] of it; calls on
    other names do not touch it. *)
Theorem table_counts_net_of_calls :
  forall cs h s api,
    allocated h s ->
    0 <= count_of h s api ->
    count_of h s api + Z.of_nat (length cs) <= max_int ->
    exists h' s',
      run_calls h s cs = Ok (h', s') /\
      count_of h' s' api = net_count api cs (count_of h s api).
Proof.
  induction cs as [|c cs IH]; intros h s api Hal Hlo Hhi.
  - by exists h, s.
  - rewrite length_cons, Nat2Z.inj_succ in Hhi. cbn [run_calls].
    destruct c as [a|a].
    + rewrite run_call_Inc.
      destruct (Inc_locked_count h s a api Hal)
        as (h1 & s1 & -> & Hal1 & Hcount & _).
      cbn [mbind res_bind bind].
      assert (count_of h1 s1 api =
              if decide (a = api) then count_of h s api + 1 else count_of h s api)
        as Hstep.
      { rewrite Hcount. case_decide as Hk.
        - subst a. rewrite decide_True by done.
          apply incr_small. unfold min_int, bits. lia.
        - by rewrite decide_False by congruence. }
      destruct (IH h1 s1 api Hal1) as (h' & s' & Hrun & Hnet).
      * rewrite Hstep. case_decide; lia.
      * rewrite Hstep. case_decide; lia.
      * exists h', s'. split; [done|]. cbn [net_count]. by rewrite <-Hstep.
    + rewrite run_call_Dec.
      destruct (Dec_locked_count h s a api) as (h1 & -> & Hlen & Hcount & _).
      cbn [mbind res_bind bind].
      assert (count_of h1 s api =
              if decide (a = api)
              then (if 0 <? count_of h s api then count_of h s api - 1
                    else count_of h s api)
              else count_of h s api) as Hstep.
      { rewrite Hcount. case_decide as Hk.
        - subst a. rewrite decide_True by done.
          destruct (Z.ltb_spec 0 (count_of h s api)); [|done].
          apply decr_small. unfold min_int, bits. lia.
        - by rewrite decide_False by congruence. }
      destruct (IH h1 s api) as (h' & s' & Hrun & Hnet).
      * intros l Hl. rewrite Hlen. by apply Hal.
      * rewrite Hstep. case_decide; [|lia].
        destruct (Z.ltb_spec 0 (count_of h s api)); lia.
      * rewrite Hstep. case_decide; [|lia].
        destruct (Z.ltb_spec 0 (count_of h s api)); lia.
      * exists h', s'. split; [done|]. cbn [net_count]. by rewrite <-Hstep.
Qed.

Lemma table_counts_net_of_calls_witness :
  exists h' s',
    run_calls [] {| APIStats := None |}
      [CallInc "GetObject"; CallInc "PutObject"; CallDec "GetObject";
       CallDec "GetObject"; CallInc "GetObject"]
    = Ok (h', s') /\
    count_of h' s' "GetObject" = 1.
Proof.
  apply (table_counts_net_of_calls
           [CallInc "GetObject"; CallInc "PutObject"; CallDec "GetObject";
            CallDec "GetObject"; CallInc "GetObject"]
           [] {| APIStats := None |} "GetObject").
  - intros l Hl. discriminate Hl.
  - vm_compute. discriminate.
  - vm_compute. discriminate.
Defined.

(** X5: no call ever removes a name from a table.  After any run of calls
    every name that was present is still present, and so is every name
    the run has incremented: [Dec] leaves a name at zero and does not
    delete it. *)
Theorem table_names_are_kept :
  forall cs h s,
    allocated h s ->
    exists h' s',
      run_calls h s cs = Ok (h', s') /\
      (forall k, is_Some (table h (APIStats s) !! k) ->
                 is_Some (table h' (APIStats s') !! k)) /\
      (forall a, CallInc a ∈ cs -> is_Some (table h' (APIStats s') !! a)).
Proof.
  induction cs as [|c cs IH]; intros h s Hal.
  - exists h, s. split; [done|]. split; [done|].
    intros a Ha. by apply elem_of_nil in Ha.
  - cbn [run_calls]. destruct c as [a|a].
    + rewrite run_call_Inc.
      destruct (Inc_locked_count h s a a Hal)
        as (h1 & s1 & -> & Hal1 & _ & Hkeep & Hnew).
      cbn [mbind res_bind bind].
      destruct (IH h1 s1 Hal1) as (h' & s' & Hrun & Hkeep' & Hnew').
      exists h', s'. split; [done|]. split; [by auto|].
      intros b [[= <-]|Hb]%elem_of_cons; by auto.
    + rewrite run_call_Dec.
      destruct (Dec_locked_count h s a a) as (h1 & -> & Hlen & _ & Hkeep).
      cbn [mbind res_bind bind].
      destruct (IH h1 s) as (h' & s' & Hrun & Hkeep' & Hnew').
      { intros l Hl. rewrite Hlen. by apply Hal. }
      exists h', s'. split; [done|]. split; [by auto|].
      intros b [[=]|Hb]%elem_of_cons. by auto.
Qed.

Lemma table_names_are_kept_witness :
  exists h' s',
    run_calls [] {| APIStats := None |}
      [CallInc "GetObject"; CallDec "GetObject"] = Ok (h', s') /\
    is_Some (table h' (APIStats s') !! "GetObject").
Proof.
  destruct (table_names_are_kept [CallInc "GetObject"; CallDec "GetObject"]
              [] {| APIStats := None |}) as (h' & s' & Hrun & _ & Hnew).
  - intros l Hl. discriminate Hl.
  - exists h', s'. split; [exact Hrun|]. apply Hnew. apply list_elem_of_here.
Defined.

(** X6: the map of a table is made at most once, by the first [Inc], and
    is never replaced: over any run of calls the store grows by one map at
    most, a struct that has its map keeps that very map and the store its
    size, and after an [Inc] the struct has a map. *)
Theorem table_map_is_made_once :
  forall cs h s,
    exists h' s',
      run_calls h s cs = Ok (h', s') /\
      (length h <= length h' <= length h + 1)%nat /\
      (forall l, APIStats s = Some l ->
                 APIStats s' = Some l /\ length h' = length h) /\
      ((exists a, CallInc a ∈ cs) -> APIStats s' <> None).
Proof.
  induction cs as [|c cs IH]; intros h s.
  - exists h, s. split; [done|]. split; [lia|]. split; [done|].
    intros [a Ha]. by apply elem_of_nil in Ha.
  - cbn [run_calls]. destruct c as [a|a].
    + rewrite run_call_Inc. destruct s as [[l|]].
      * destruct (Inc_locked_spec h {| APIStats := Some l |} a)
          as (h1 & s1 & -> & _ & Hsame & _).
        destruct (Hsame l eq_refl) as [-> Hlen1].
        cbn [mbind res_bind bind].
        destruct (IH h1 {| APIStats := Some l |})
          as (h' & s' & Hrun & Hlen & Hkeep & _).
        destruct (Hkeep l eq_refl) as [Hs' Hlen'].
        exists h', s'. split; [done|]. split; [lia|]. split.
        -- intros ? [= <-]. split; [done|lia].
        -- intros _. by rewrite Hs'.
      * rewrite Inc_locked_fresh. cbn [mbind res_bind bind].
        destruct (IH (h ++ [ {[a := 1]} ]) {| APIStats := Some (length h) |})
          as (h' & s' & Hrun & Hlen & Hkeep & _).
        destruct (Hkeep (length h) eq_refl) as [Hs' Hlen'].
        rewrite length_app in Hlen'. simpl in Hlen'.
        exists h', s'. split; [done|]. split; [lia|]. split; [done|].
        intros _. by rewrite Hs'.
    + rewrite run_call_Dec.
      destruct (Dec_locked_spec h s a) as (h1 & -> & Hlen1 & _).
      cbn [mbind res_bind bind].
      destruct (IH h1 s) as (h' & s' & Hrun & Hlen & Hkeep & Hinc).
      exists h', s'. split; [done|]. split; [lia|]. split.
      * intros l Hl. destruct (Hkeep l Hl). split; [done|lia].
      * intros [b [[=]|Hb]%elem_of_cons]. apply Hinc. by exists b.
Qed.

Lemma table_map_is_made_once_witness :
  exists h' s',
    run_calls [] {| APIStats := None |}
      [CallDec "GetObject"; CallInc "GetObject"; CallInc "PutObject"]
    = Ok (h', s') /\
    (length h' <= 1)%nat /\ APIStats s' <> None.
Proof.
  destruct (table_map_is_made_once
              [CallDec "GetObject"; CallInc "GetObject"; CallInc "PutObject"]
              [] {| APIStats := None |}) as (h' & s' & Hrun & Hlen & _ & Hinc).
  exists h', s'. split; [exact Hrun|]. split; [exact (proj2 Hlen)|].
  apply Hinc. exists "GetObject".
  apply list_elem_of_further, list_elem_of_here.
Defined.

(** X7: [Dec] never makes the map.  On a struct whose map is still nil
    any run of [Dec] calls reads the nil map, finds no name, and leaves
    the store and the struct exactly as they were, without a panic. *)
Theorem dec_before_any_inc_is_a_no_op :
  forall cs h s,
    APIStats s = None ->
    forallb is_dec cs = true ->
    run_calls h s cs = Ok (h, s).
Proof.
  induction cs as [|[a|a] cs IH]; intros h s Hnil Hdec; [done|done|].
  cbn [run_calls]. rewrite run_call_Dec.
  assert (Dec_locked h s a = Ok (h, s)) as ->.
  { unfold Dec_locked, map_get. rewrite Hnil. unfold table.
    by rewrite lookup_empty. }
  cbn [mbind res_bind bind]. by apply IH.
Qed.

Lemma dec_before_any_inc_is_a_no_op_witness :
  run_calls [] {| APIStats := None |} [CallDec "GetObject"; CallDec "PutObject"]
  = Ok ([], {| APIStats := None |}).
Proof.
  apply dec_before_any_inc_is_a_no_op; reflexivity.
Defined.

(** X8: tables do not interfere.  Any run of calls on one table leaves
    every count of another table as it was, when the other table's map is
    in the store and is not the map of the table called. *)
Theorem tables_do_not_interfere :
  forall cs h s t,
    allocated h s -> allocated h t -> apart s t ->
    exists h' s',
      run_calls h s cs = Ok (h', s') /\
      table h' (APIStats t) = table h (APIStats t).
Proof.
  induction cs as [|c cs IH]; intros h s t Hs Ht Hst.
  - by exists h, s.
  - cbn [run_calls]. destruct c as [a|a].
    + rewrite run_call_Inc.
      destruct (Inc_step h s t a Hs Ht Hst)
        as (h1 & s1 & -> & Hs1 & Ht1 & Hst1 & _ & Hkeep).
      cbn [mbind res_bind bind].
      destruct (IH h1 s1 t Hs1 Ht1 Hst1) as (h' & s' & Hrun & Hkeep').
      exists h', s'. split; [done|]. by rewrite Hkeep'.
    + rewrite run_call_Dec.
      destruct (Dec_locked_spec h s a) as (h1 & -> & Hlen & Hcase).
      cbn [mbind res_bind bind].
      assert (table h1 (APIStats t) = table h (APIStats t)) as Hkeep.
      { destruct (table h (APIStats s) !! a) as [v|]; [|by subst].
        case_decide; [|by subst]. destruct Hcase as [_ Hframe].
        destruct (APIStats t) as [l|] eqn:Hl; [|done].
        apply Hframe. intros Hsl. by apply (Hst l). }
      destruct (IH h1 s t) as (h' & s' & Hrun & Hkeep').
      * intros l Hl. rewrite Hlen. by apply Hs.
      * intros l Hl. rewrite Hlen. by apply Ht.
      * done.
      * exists h', s'. split; [done|]. by rewrite Hkeep'.
Qed.

Lemma tables_do_not_interfere_witness :
  exists h' s',
    run_calls [ {["GetObject" := 3]} ] {| APIStats := None |}
      [CallInc "GetObject"; CallDec "GetObject"; CallInc "PutObject"]
    = Ok (h', s') /\
    table h' (Some 0%nat) = {["GetObject" := 3]}.
Proof.
  destruct (tables_do_not_interfere
              [CallInc "GetObject"; CallDec "GetObject"; CallInc "PutObject"]
              [ {["GetObject" := 3]} ] {| APIStats := None |}
              {| APIStats := Some 0%nat |}) as (h' & s' & Hrun & Hkeep).
  - intros l Hl. discriminate Hl.
  - intros l [= <-]. simpl. lia.
  - intros l Hl. discriminate Hl.
  - exists h', s'. split; [exact Hrun|]. exact Hkeep.
Defined.

End TableExtras.

(** * More about [updateStats] *)

Section UpdateExtras.
Import Go Stats.

#[local] Arguments table : simpl never.

(** [updateStats] as two optional increments and one optional
    observation. *)
Lemma updateStats_steps prom (float64 : Type) h st (hist : histogram float64)
    api r w (d : float64) :
  let counted := isS3Request w && negb (HasSuffix (URL_Path r) prom) in
  let bad := negb ((respStatusCode w >=? 200) && (respStatusCode w <? 300))
             && negb (respStatusCode w =? 0) in
  updateStats prom float64 h st hist api r w d =
  '(h1, t) ← (if counted then Inc_locked h (totalS3Requests st) api
              else Ok (h, totalS3Requests st));
  '(h2, e) ← (if counted && bad then Inc_locked h1 (totalS3Errors st) api
              else Ok (h1, totalS3Errors st));
  Ok (h2,
      {| currentS3Requests := currentS3Requests st;
         totalS3Requests := t;
         totalS3Errors := e |},
      hist ++ (if isS3Request w && String.eqb (Method r) "GET"
               then [(api, d)] else [])).
Proof.
  intros counted bad. unfold updateStats. fold counted. fold bad.
  destruct counted; cbn [andb].
  - change (on_field h (totalS3Requests st) (Inc h (Some (totalS3Requests st)) api))
      with (run_call h (totalS3Requests st) (CallInc api)).
    rewrite run_call_Inc.
    destruct (Inc_locked_spec h (totalS3Requests st) api) as (h1 & t & -> & _).
    cbn [mbind res_bind bind totalS3Errors currentS3Requests totalS3Requests].
    destruct bad.
    + change (on_field h1 (totalS3Errors st) (Inc h1 (Some (totalS3Errors st)) api))
        with (run_call h1 (totalS3Errors st) (CallInc api)).
      rewrite run_call_Inc.
      destruct (Inc_locked_spec h1 (totalS3Errors st) api) as (h2 & e & -> & _).
      cbn [mbind res_bind bind].
      destruct (isS3Request w && String.eqb (Method r) "GET");
        [reflexivity|by rewrite app_nil_r].
    + cbn [mbind res_bind bind].
      destruct (isS3Request w && String.eqb (Method r) "GET");
        [reflexivity|by rewrite app_nil_r].
  - cbn [mbind res_bind bind]. destruct st.
    destruct (isS3Request w && String.eqb (Method r) "GET");
      [reflexivity|by rewrite app_nil_r].
Qed.

(** X9: whenever [updateStats] returns, it has kept every earlier
    observation of the histogram and added one observation, the duration
    under the [api] label, exactly when the response is flagged as an S3
    request and the method is GET; the path and the status code play no
    part in it, so a GET of the metrics path is observed although it is
    not counted. *)
Theorem updateStats_observes_s3_gets :
  forall prom (float64 : Type) h st (hist : histogram float64) api r w
         (d : float64) h' st' hist',
    updateStats prom float64 h st hist api r w d = Ok (h', st', hist') ->
    hist' = hist ++ (if isS3Request w && String.eqb (Method r) "GET"
                     then [(api, d)] else []).
Proof.
  intros prom float64 h st hist api r w d h' st' hist'.
  rewrite updateStats_steps. cbv zeta.
  destruct (if isS3Request w && negb (HasSuffix (URL_Path r) prom)
            then Inc_locked h (totalS3Requests st) api
            else Ok (h, totalS3Requests st)) as [[h1 t]|p];
    cbn [mbind res_bind bind]; [|done].
  destruct (if (_ : bool) then Inc_locked h1 (totalS3Errors st) api
            else Ok (h1, totalS3Errors st)) as [[h2 e]|p];
    cbn [mbind res_bind bind]; [|done].
  by intros [= _ _ <-].
Qed.

Lemma updateStats_observes_s3_gets_witness :
  updateStats "/prometheus/metrics" Z [] newHTTPStats [ ("PutObject", 7) ]
    "GetObject"
    {| URL_Path := "/radio/prometheus/metrics"; Method := "GET" |}
    {| respStatusCode := 200; isS3Request := true |} 5
  = Ok ([], newHTTPStats, [ ("PutObject", 7); ("GetObject", 5) ]) /\
  [ ("PutObject", 7); ("GetObject", 5) ]
  = [ ("PutObject", 7) ] ++ [ ("GetObject", 5) ].
Proof.
  split; [reflexivity|].
  apply (updateStats_observes_s3_gets "/prometheus/metrics" Z []
           newHTTPStats [ ("PutObject", 7) ] "GetObject"
           {| URL_Path := "/radio/prometheus/metrics"; Method := "GET" |}
           {| respStatusCode := 200; isS3Request := true |} 5
           [] newHTTPStats).
  reflexivity.
Defined.

(** X10: [updateStats] leaves the table of the requests in flight alone:
    the struct [currentS3Requests] is the same afterwards, and when its
    map is in the store and apart from the maps of the two other tables,
    so is every count in it. *)
Theorem updateStats_keeps_current_requests :
  forall prom (float64 : Type) h st (hist : histogram float64) api r w
         (d : float64),
    well_formed h st ->
    allocated h (currentS3Requests st) ->
    apart (totalS3Requests st) (currentS3Requests st) ->
    apart (totalS3Errors st) (currentS3Requests st) ->
    exists h' st' hist',
      updateStats prom float64 h st hist api r w d = Ok (h', st', hist') /\
      currentS3Requests st' = currentS3Requests st /\
      table h' (APIStats (currentS3Requests st'))
      = table h (APIStats (currentS3Requests st)).
Proof.
  intros prom float64 h st hist api r w d (Hreq & Herr & Hapart) Hcur Hrc Hec.
  rewrite updateStats_steps. cbv zeta.
  destruct (isS3Request w && negb (HasSuffix (URL_Path r) prom)); cbn [andb].
  - destruct (Inc_step h (totalS3Requests st) (currentS3Requests st) api)
      as (h1 & t & Hrun & _ & Hcur1 & _ & _ & Hkeep1); [done..|].
    rewrite Hrun. cbn [mbind res_bind bind].
    assert (allocated h1 (totalS3Errors st)) as Herr1.
    { destruct (Inc_locked_spec h (totalS3Requests st) api)
        as (h1' & t' & Hrun' & Hlen & _).
      rewrite Hrun in Hrun'. injection Hrun' as <- <-.
      intros l Hl. apply Herr in Hl. lia. }
    destruct (negb _ && negb _).
    + destruct (Inc_step h1 (totalS3Errors st) (currentS3Requests st) api)
        as (h2 & e & Hrun2 & _ & _ & _ & _ & Hkeep2); [done..|].
      rewrite Hrun2. cbn [mbind res_bind bind].
      eexists _, _, _. split; [reflexivity|]. split; [done|].
      cbn [currentS3Requests]. by rewrite Hkeep2.
    + cbn [mbind res_bind bind].
      eexists _, _, _. split; [reflexivity|]. by split.
  - cbn [mbind res_bind bind]. eexists _, _, _. split; [reflexivity|]. by split.
Qed.

Lemma updateStats_keeps_current_requests_witness :
  exists h' st' hist',
    updateStats "/prometheus/metrics" Z
      [ {["GetObject" := 3]} ]
      {| currentS3Requests := {| APIStats := Some 0%nat |};
         totalS3Requests := {| APIStats := None |};
         totalS3Errors := {| APIStats := None |} |}
      [] "GetObject"
      {| URL_Path := "/bucket/key"; Method := "GET" |}
      {| respStatusCode := 500; isS3Request := true |} 5
    = Ok (h', st', hist') /\
    table h' (APIStats (currentS3Requests st')) = {["GetObject" := 3]}.
Proof.
  destruct (updateStats_keeps_current_requests "/prometheus/metrics" Z
              [ {["GetObject" := 3]} ]
              {| currentS3Requests := {| APIStats := Some 0%nat |};
                 totalS3Requests := {| APIStats := None |};
                 totalS3Errors := {| APIStats := None |} |}
              [] "GetObject"
              {| URL_Path := "/bucket/key"; Method := "GET" |}
              {| respStatusCode := 500; isS3Request := true |} 5)
    as (h' & st' & hist' & Hrun & _ & Htab).
  - split; [|split]; intros l Hl; discriminate Hl.
  - intros l [= <-]. simpl. lia.
  - intros l Hl. discriminate Hl.
  - intros l Hl. discriminate Hl.
  - exists h', st', hist'. split; [exact Hrun|]. exact Htab.
Defined.

(** X11: errors never outnumber requests.  If for every name the error
    count is at most the request count, the same holds after
    [updateStats], as long as the request count of [api] has room for one
    more: an error is only ever counted together with its request. *)
Theorem updateStats_errors_at_most_requests :
  forall prom (float64 : Type) h st (hist : histogram float64) api r w
         (d : float64),
    well_formed h st ->
    (forall k, count_of h (totalS3Errors st) k
               <= count_of h (totalS3Requests st) k) ->
    min_int <= count_of h (totalS3Errors st) api ->
    count_of h (totalS3Requests st) api < max_int ->
    exists h' st' hist',
      updateStats prom float64 h st hist api r w d = Ok (h', st', hist') /\
      forall k, count_of h' (totalS3Errors st') k
                <= count_of h' (totalS3Requests st') k.
Proof.
  intros prom float64 h st hist api r w d (Hreq & Herr & Hapart) Hle Hlo Hhi.
  pose proof (Hle api) as Hapi.
  rewrite updateStats_steps. cbv zeta.
  destruct (isS3Request w && negb (HasSuffix (URL_Path r) prom)); cbn [andb].
  - destruct (Inc_step h (totalS3Requests st) (totalS3Errors st) api)
      as (h1 & t & Hrun & Ht & Herr1 & Hapart1 & Htab & Hkeep); [done..|].
    rewrite Hrun. cbn [mbind res_bind bind].
    assert (forall k, count_of h1 t k =
                      if decide (k = api)
                      then count_of h (totalS3Requests st) api + 1
                      else count_of h (totalS3Requests st) k) as Hreq1.
    { intros k. rewrite (count_of_default h1 t), Htab. case_decide as Hk.
      - subst k. rewrite lookup_insert_eq. simpl.
        apply incr_small. lia.
      - rewrite lookup_insert_ne by done. by rewrite <-count_of_default. }
    assert (forall k, count_of h1 (totalS3Errors st) k
                      = count_of h (totalS3Errors st) k) as Herr_same.
    { intros k. by apply count_of_table. }
    destruct (negb _ && negb _).
    + destruct (Inc_step h1 (totalS3Errors st) t api)
        as (h2 & e & Hrun2 & _ & _ & _ & Htab2 & Hkeep2);
        [done|done|by apply apart_sym|].
      rewrite Hrun2. cbn [mbind res_bind bind].
      eexists _, _, _. split; [reflexivity|]. intros k.
      cbn [totalS3Errors totalS3Requests].
      rewrite (count_of_table h2 t h1 t k Hkeep2), Hreq1.
      rewrite (count_of_default h2 e), Htab2, Herr_same.
      case_decide as Hk.
      * subst k. rewrite lookup_insert_eq. simpl.
        rewrite incr_small by lia. lia.
      * rewrite lookup_insert_ne by done.
        rewrite <-count_of_default, Herr_same. apply Hle.
    + cbn [mbind res_bind bind].
      eexists _, _, _. split; [reflexivity|]. intros k.
      cbn [totalS3Errors totalS3Requests].
      rewrite Hreq1, Herr_same. case_decide as Hk; [subst k; lia|apply Hle].
  - cbn [mbind res_bind bind]. eexists _, _, _. split; [reflexivity|]. done.
Qed.

Lemma updateStats_errors_at_most_requests_witness :
  exists h' st' hist',
    updateStats "/prometheus/metrics" Z [] newHTTPStats [] "GetObject"
      {| URL_Path := "/bucket/key"; Method := "GET" |}
      {| respStatusCode := 404; isS3Request := true |} 5
    = Ok (h', st', hist') /\
    forall k, count_of h' (totalS3Errors st') k
              <= count_of h' (totalS3Requests st') k.
Proof.
  apply (updateStats_errors_at_most_requests "/prometheus/metrics" Z []
           newHTTPStats [] "GetObject"
           {| URL_Path := "/bucket/key"; Method := "GET" |}
           {| respStatusCode := 404; isS3Request := true |} 5).
  - split; [|split]; intros l Hl; discriminate Hl.
  - intros k. reflexivity.
  - vm_compute. discriminate.
  - vm_compute. reflexivity.
Defined.

End UpdateExtras.

(** * More about the directory listing *)

Section DirExtras.
Import Go Dir Sample.

Section Loop.

Variable path_Join : string -> string -> string.
Variable SlashSeparator : string.
Variable fs : FS.
Variable dirPath : string.

Abbreviation visit := (visit path_Join SlashSeparator fs dirPath).
Abbreviation read_loop := (read_loop path_Join SlashSeparator fs dirPath).
Abbreviation listed := (listed path_Join SlashSeparator fs dirPath).
Abbreviation complaint := (complaint path_Join fs dirPath).
Abbreviation unresolved := (unresolved path_Join fs dirPath).
Abbreviation resolve := (resolve path_Join fs dirPath).

(** Whatever the loop returns without an error is the listing of the
    first entries of what was left to read, up to some point. *)
Lemma read_loop_prefix count n fuel : forall d s o,
  0 < n ->
  read_loop count fuel d n s = Some (Ok o) ->
  out_err o = None ->
  exists k,
    out_entries o = entries s ++ flat_map listed (take k (dents (f_stream d))) /\
    out_log o = logged s ++ flat_map complaint (take k (dents (f_stream d))).
Proof.
  intros d s o Hn Hrun Herr.
  apply read_loop_visited in Hrun as (k & Hlg & Hes); [|done].
  exists k. split; [by apply Hes|done].
Qed.

(** An unbounded listing of a directory whose reading fails ends with
    that failure.  The batches read in full before it have been visited;
    the entries that came together with the failure have not. *)
Lemma read_loop_unbounded_fault count n fuel errno : forall d s,
  0 < n -> count <= 0 ->
  fault (f_stream d) = Some errno ->
  (length (dents (f_stream d)) < fuel)%nat ->
  read_loop count fuel d n s =
  Some (Ok {| out_entries := [];
              out_err := Some (os_error {| Op := "readdirent";
                                           Path := f_name d;
                                           Err := errno |});
              out_log :=
                logged s ++
                flat_map complaint
                  (take (Z.to_nat n * (length (dents (f_stream d)) / Z.to_nat n))
                        (dents (f_stream d))) |}).
Proof.
  induction fuel as [|fuel IH]; intros d s Hn Hc Hfault Hfuel; [lia|].
  destruct (Nat.ltb_spec (length (dents (f_stream d))) (Z.to_nat n))
    as [Hshort|Hfull].
  - rewrite (read_loop_failed _ _ _ _ count fuel d n s errno) by done.
    rewrite Nat.div_small, Nat.mul_0_r by done.
    unfold returns. simpl. by rewrite app_nil_r.
  - assert (dents (f_stream d) <> []) as Hd.
    { intros Hnil. rewrite Hnil in Hfull. simpl in Hfull. lia. }
    rewrite read_loop_batch by (done || by apply hits_fault_enough).
    cbv zeta. assert ((count >? 0) = false) as -> by lia. simpl andb. cbv iota.
    rewrite IH; [|done|done|done|simpl; rewrite length_drop; lia].
    rewrite fold_visit_logged. cbn [advance f_name f_stream dents].
    rewrite length_drop.
    set (l := dents (f_stream d)) in *. set (m := Z.to_nat n) in *.
    assert (length l / m = (length l - m) / m + 1)%nat as ->.
    { rewrite <-Nat.div_add by lia. f_equal. lia. }
    rewrite Nat.mul_add_distr_l, Nat.mul_1_r.
    rewrite (Nat.add_comm _ m), <-take_take_drop, flat_map_app.
    by rewrite <-!app_assoc.
Qed.

(** A bounded listing whose count fits in one batch, of a directory that
    holds that many entries, makes one read and ends on it. *)
Lemma read_loop_one_batch count fuel d :
  0 < count <= 1000 ->
  (Z.to_nat count <= length (dents (f_stream d)))%nat ->
  read_loop count (S fuel) d (maxEntries_of count)
            {| entries := []; remaining := count; logged := [] |} =
  Some (Ok {| out_entries :=
                flat_map listed (take (Z.to_nat count) (dents (f_stream d)));
              out_err := None;
              out_log :=
                flat_map complaint
                  (take (Z.to_nat count) (dents (f_stream d))) |}).
Proof.
  intros [Hpos Hmax] Hfit.
  assert (maxEntries_of count = count) as ->.
  { unfold maxEntries_of.
    destruct (Z.ltb_spec count 1000); rewrite ?andb_false_r, ?andb_true_r.
    - by assert ((count >? 0) = true) as -> by lia.
    - destruct (count >? 0); lia. }
  assert (dents (f_stream d) <> []) as Hd.
  { intros Hnil. rewrite Hnil in Hfit. simpl in Hfit. lia. }
  rewrite read_loop_batch by (done || by apply hits_fault_enough).
  cbv zeta. cbn [remaining]. rewrite length_take.
  assert ((count >? 0) = true) as -> by lia.
  replace (Z.to_nat count `min` length (dents (f_stream d)))%nat
    with (Z.to_nat count) by lia.
  assert ((count <=? Z.of_nat (Z.to_nat count)) = true) as ->
    by (apply Z.leb_le; lia).
  assert ((count <? 0) = false) as -> by lia.
  cbn [andb]. unfold returns.
  rewrite fold_visit_entries, fold_visit_logged, take_take.
  by replace (Z.to_nat count `min` Z.to_nat count)%nat
    with (Z.to_nat count) by lia.
Qed.

Lemma listed_of_kind fi :
  resolve fi <> Skipped ->
  unresolved fi = false /\ length (listed fi) = 1%nat.
Proof.
  unfold Dir.listed, Dir.unresolved, Dir.resolve. intros Hk.
  destruct (isSymlink (Mode fi)).
  - destruct (os_Stat fs _) as [err|st]; [done|]. split; [done|].
    by destruct (kind_of_mode (Mode st)).
  - split; [done|]. by destruct (kind_of_mode (Mode fi)).
Qed.

Lemma flat_map_listed_full fis :
  Forall (fun fi => resolve fi <> Skipped) fis ->
  Forall (fun fi => unresolved fi = false) fis /\
  length (flat_map listed fis) = length fis.
Proof.
  induction 1 as [|fi fis Hfi _ [IH1 IH2]]; [done|].
  destruct (listed_of_kind fi Hfi) as [Hres Hone].
  split; [by constructor|]. simpl. rewrite length_app. lia.
Qed.

Lemma listed_name fi name :
  name ∈ listed fi -> name = Name fi \/ name = Name fi +:+ SlashSeparator.
Proof.
  unfold Dir.listed. destruct (resolve fi).
  - intros ->%list_elem_of_singleton. by right.
  - intros ->%list_elem_of_singleton. by left.
  - by intros ?%elem_of_nil.
Qed.

End Loop.

(** X12: a listing that returns no error is the listing of a prefix of
    the directory.  For some [k], the names are those of the first [k]
    entries, in their order, each listed by its kind, and the log holds
    one line for each unresolved link among these [k] entries: nothing is
    reordered, and no entry is passed over before one that is listed. *)
Theorem readDirN_lists_a_prefix :
  forall path_Join SlashSeparator fs dirPath count ds,
    count <= max_int ->
    fs_open fs dirPath = inr ds ->
    exists o,
      readDirN path_Join SlashSeparator fs dirPath count = Some (Ok o) /\
      (out_err o = None ->
       exists k,
         out_entries o
         = flat_map (listed path_Join SlashSeparator fs dirPath)
                    (take k (dents ds)) /\
         out_log o
         = flat_map (complaint path_Join fs dirPath) (take k (dents ds))).
Proof.
  intros path_Join SlashSeparator fs dirPath count ds Hmax Hopen.
  destruct (readDirN_returns path_Join SlashSeparator fs dirPath count Hmax)
    as (o & Hrun & _).
  exists o. split; [done|]. intros Herr.
  rewrite (readDirN_opened path_Join SlashSeparator fs dirPath count ds Hopen)
    in Hrun.
  apply read_loop_prefix in Hrun as (k & Hes & Hlg);
    [|apply maxEntries_pos|done].
  by exists k.
Qed.

Lemma readDirN_lists_a_prefix_witness :
  exists o,
    readDirN join "/" mixed "d" 3 = Some (Ok o) /\
    (out_err o = None ->
     exists k,
       out_entries o
       = flat_map (listed join "/" mixed "d")
                  (take k [link "gone"; file "a"; subdir "sub";
                           device "null"; link "ld"]) /\
       out_log o
       = flat_map (complaint join mixed "d")
                  (take k [link "gone"; file "a"; subdir "sub";
                           device "null"; link "ld"])).
Proof.
  apply (readDirN_lists_a_prefix join "/" mixed "d" 3
           {| dents := [link "gone"; file "a"; subdir "sub";
                        device "null"; link "ld"];
              fault := None |}).
  - vm_compute. discriminate.
  - reflexivity.
Defined.

(** X13: the listing never makes up a name.  Every name returned is the
    name of an entry of the directory, bare or with the separator
    appended. *)
Theorem readDirN_names_come_from_entries :
  forall path_Join SlashSeparator fs dirPath count ds,
    count <= max_int ->
    fs_open fs dirPath = inr ds ->
    exists o,
      readDirN path_Join SlashSeparator fs dirPath count = Some (Ok o) /\
      forall name,
        name ∈ out_entries o ->
        exists fi,
          fi ∈ dents ds /\
          (name = Name fi \/ name = Name fi +:+ SlashSeparator).
Proof.
  intros path_Join SlashSeparator fs dirPath count ds Hmax Hopen.
  rewrite (readDirN_opened path_Join SlashSeparator fs dirPath count ds Hopen).
  destruct (read_loop_returns path_Join SlashSeparator fs dirPath count
              (maxEntries_of count) (S (length (dents ds)))
              {| f_name := dirPath; f_stream := ds |}
              {| entries := []; remaining := count; logged := [] |})
    as (o & Hrun & _ & Herr);
    [apply maxEntries_pos|done|intros ?; simpl; lia|simpl; lia|].
  exists o. split; [done|]. intros name Hname.
  destruct (out_err o) as [e|] eqn:He.
  - destruct Herr as (_ & _ & _ & Hnil). rewrite Hnil in Hname.
    by apply elem_of_nil in Hname.
  - apply read_loop_prefix in Hrun as (k & Hes & _);
      [|apply maxEntries_pos|done].
    rewrite Hes in Hname. cbn [entries app f_stream] in Hname.
    apply list_elem_of_In, in_flat_map in Hname as (fi & Hfi & Hin).
    exists fi. split.
    + apply list_elem_of_In in Hfi. eapply subseteq_take, Hfi.
    + apply (listed_name path_Join SlashSeparator fs dirPath).
      by apply list_elem_of_In.
Qed.

Lemma readDirN_names_come_from_entries_witness :
  exists o,
    readDirN join "/" mixed "d" (-1) = Some (Ok o) /\
    forall name,
      name ∈ out_entries o ->
      exists fi,
        fi ∈ [link "gone"; file "a"; subdir "sub"; device "null"; link "ld"] /\
        (name = Name fi \/ name = Name fi +:+ "/").
Proof.
  apply (readDirN_names_come_from_entries join "/" mixed "d" (-1)
           {| dents := [link "gone"; file "a"; subdir "sub";
                        device "null"; link "ld"];
              fault := None |}).
  - vm_compute. discriminate.
  - reflexivity.
Defined.

(** X14: "Return N entries": from a directory that reads to its end and
    holds nothing but directories, regular files and links that resolve to
    one of the two, a listing with a positive count returns exactly that
    many names, or all of them when the directory has fewer, and no
    error. *)
Theorem readDirN_returns_count_names :
  forall path_Join SlashSeparator fs dirPath count ds,
    0 < count <= max_int ->
    fs_open fs dirPath = inr ds ->
    fault ds = None ->
    Forall (fun fi => resolve path_Join fs dirPath fi <> Skipped) (dents ds) ->
    exists o,
      readDirN path_Join SlashSeparator fs dirPath count = Some (Ok o) /\
      out_err o = None /\
      length (out_entries o) = (Z.to_nat count `min` length (dents ds))%nat.
Proof.
  intros path_Join SlashSeparator fs dirPath count ds [Hpos Hmax]
         Hopen Hfault Hall.
  destruct (flat_map_listed_full path_Join SlashSeparator fs dirPath
              (take (Z.to_nat count) (dents ds))) as [_ Hlen];
    [by apply Forall_take|].
  destruct (flat_map_listed_full path_Join SlashSeparator fs dirPath
              (dents ds) Hall) as [Hres _].
  rewrite (readDirN_opened path_Join SlashSeparator fs dirPath count ds Hopen).
  rewrite read_loop_truncates;
    [|apply maxEntries_pos|done|simpl; lia|done|done|simpl; lia].
  eexists. split; [reflexivity|]. split; [done|].
  cbn [out_entries entries remaining f_stream app].
  by rewrite Hlen, length_take.
Qed.

Lemma readDirN_returns_count_names_witness :
  exists o,
    readDirN join "/" one_file "d" 5 = Some (Ok o) /\
    out_err o = None /\
    length (out_entries o) = 1%nat.
Proof.
  apply (readDirN_returns_count_names join "/" one_file "d" 5
           {| dents := [file "a"]; fault := None |}).
  - vm_compute. split; [reflexivity|discriminate].
  - reflexivity.
  - reflexivity.
  - repeat constructor. vm_compute. discriminate.
Defined.

(** X15: every count that is not positive means "all the entries":
    [readDirN] with such a count returns what [readDir] returns. *)
Theorem readDir_is_any_nonpositive_count :
  forall path_Join SlashSeparator fs dirPath count,
    count <= 0 ->
    readDirN path_Join SlashSeparator fs dirPath count
    = readDir path_Join SlashSeparator fs dirPath.
Proof.
  intros path_Join SlashSeparator fs dirPath count Hc.
  unfold readDir. by apply readDirN_nonpositive.
Qed.

Lemma readDir_is_any_nonpositive_count_witness :
  readDirN join "/" mixed "d" (-7) = readDir join "/" mixed "d".
Proof.
  apply readDir_is_any_nonpositive_count. vm_compute. discriminate.
Defined.

Lemma readDirN_open_failure_witness :
  readDirN join "/" one_file "elsewhere" 3
  = Some (Ok {| out_entries := [];
                out_err := Some errFileNotFound;
                out_log := [] |}).
Proof.
  exact (readDirN_open_failure join "/" one_file "elsewhere" 3 ENOENT eq_refl).
Defined.

Lemma readDirN_bounded_witness :
  exists o,
    readDirN join "/" mixed "d" 2 = Some (Ok o) /\
    Z.of_nat (length (out_entries o)) <= 2.
Proof.
  apply (readDirN_bounded join "/" mixed "d" 2).
  vm_compute. split; [reflexivity|discriminate].
Defined.

(** X18: an unbounded listing of a directory whose reading fails returns
    that failure and no names, however many entries were read before it.
    The entries are read a thousand at a time, and the read that fails
    hands out, with its error, the entries it had gathered: these are
    dropped unvisited.  So the log holds the lines of the links that did
    not resolve among the batches read in full, and of no entry behind
    them. *)
Theorem readDir_fails_when_reading_fails :
  forall path_Join SlashSeparator fs dirPath count ds errno,
    count <= 0 ->
    fs_open fs dirPath = inr ds ->
    fault ds = Some errno ->
    readDirN path_Join SlashSeparator fs dirPath count
    = Some (Ok {| out_entries := [];
                  out_err := Some (os_error {| Op := "readdirent";
                                               Path := dirPath;
                                               Err := errno |});
                  out_log :=
                    flat_map (complaint path_Join fs dirPath)
                      (take (1000 * (length (dents ds) / 1000)) (dents ds)) |}).
Proof.
  intros path_Join SlashSeparator fs dirPath count ds errno Hc Hopen Hfault.
  rewrite (readDirN_opened path_Join SlashSeparator fs dirPath count ds Hopen).
  rewrite (read_loop_unbounded_fault path_Join SlashSeparator fs dirPath
             count (maxEntries_of count) _ errno);
    [|apply maxEntries_pos|done|done|simpl; lia].
  assert (maxEntries_of count = 1000) as ->; [|done].
  unfold maxEntries_of. by assert ((count >? 0) = false) as -> by lia.
Qed.

Lemma readDir_fails_when_reading_fails_witness :
  readDirN join "/" (broken [link "gone"]) "d" (-1)
  = Some (Ok {| out_entries := [];
                out_err := Some (os_error {| Op := "readdirent";
                                             Path := "d"; Err := EIO |});
                out_log := [] |}).
Proof.
  exact (readDir_fails_when_reading_fails join "/" (broken [link "gone"])
           "d" (-1) {| dents := [link "gone"]; fault := Some EIO |} EIO
           ltac:(vm_compute; discriminate) eq_refl eq_refl).
Defined.

(** X19: a bounded listing whose count is at most a thousand makes one
    read of that many entries and stops.  When the directory holds at
    least [count] entries, the listing is that of the first [count]
    entries, with a nil error, whatever lies behind them: a read failure
    further on is never met.  The links that do not resolve among these
    entries are logged and left out, and nothing is read to make up for
    them. *)
Theorem readDirN_stops_at_count :
  forall path_Join SlashSeparator fs dirPath count ds,
    0 < count <= 1000 ->
    fs_open fs dirPath = inr ds ->
    (Z.to_nat count <= length (dents ds))%nat ->
    readDirN path_Join SlashSeparator fs dirPath count
    = Some (Ok {| out_entries :=
                    flat_map (listed path_Join SlashSeparator fs dirPath)
                             (take (Z.to_nat count) (dents ds));
                  out_err := None;
                  out_log :=
                    flat_map (complaint path_Join fs dirPath)
                             (take (Z.to_nat count) (dents ds)) |}).
Proof.
  intros path_Join SlashSeparator fs dirPath count ds Hcount Hopen Hfit.
  rewrite (readDirN_opened path_Join SlashSeparator fs dirPath count ds Hopen).
  by rewrite read_loop_one_batch.
Qed.

Lemma readDirN_stops_at_count_witness :
  readDirN join "/" (broken [file "a"; link "gone"; file "b"]) "d" 2
  = Some (Ok {| out_entries :=
                  flat_map (listed join "/"
                              (broken [file "a"; link "gone"; file "b"]) "d")
                           [file "a"; link "gone"];
                out_err := None;
                out_log :=
                  flat_map (complaint join
                              (broken [file "a"; link "gone"; file "b"]) "d")
                           [file "a"; link "gone"] |}).
Proof.
  apply (readDirN_stops_at_count join "/"
           (broken [file "a"; link "gone"; file "b"]) "d" 2
           {| dents := [file "a"; link "gone"; file "b"];
              fault := Some EIO |}).
  - vm_compute. split; [reflexivity|discriminate].
  - reflexivity.
  - vm_compute. lia.
Defined.

End DirExtras.
